(** * blaster: the lifecycle coordinator of the blast engine

    A shallow embedding of [src/blaster/blaster.go]: the [Blaster] struct,
    [New], [Exit], [Start], [start] and [RegisterWorkerType].

    The goroutine that runs [Start] is a program-counter machine, one
    program point per statement of [Start] and [start]; the goroutine that
    [New] spawns is a second one.  Everything else that runs concurrently
    (dispatch loop, executors, logging and error loops, the operating
    system) acts on the shared state through [env_action]s.  A run is a
    list of [label]s, executed by [exec]. *)

From Stdlib Require Import ZArith Lia Floats.
From stdpp Require Import base gmap strings list pretty.

Local Open Scope Z_scope.

(** ** Values of the Go runtime *)

(** A non-nil [error] is represented by its message; [None] is [nil]. *)
Definition error := string.

(** [errors.New(msg)]. *)
Definition errors_New (msg : string) : error := msg.

(** A [context.Context] is named by a number; the contexts whose [Done]
    channel is closed form a set.  A [context.CancelFunc] is named by the
    context it cancels. *)
Definition ctx_id := nat.
Definition CancelFunc := ctx_id.

(** [os.Signal]; only [os.Interrupt] is ever registered (line 87). *)
Inductive Signal := Interrupt.

(** [uint64], with the wrap-around of [atomic.AddUint64]. *)
Definition uint64_max : Z := 2 ^ 64.
Definition wrap64 (z : Z) : Z := z mod uint64_max.

(** A channel [chan A]: capacity, buffered values (oldest first), closed. *)
Record chan (A : Type) := Chan {
  ch_cap : nat;
  ch_buf : list A;
  ch_closed : bool
}.
Arguments Chan {A} _ _ _.
Arguments ch_cap {A} _.
Arguments ch_buf {A} _.
Arguments ch_closed {A} _.

(** [make(chan A, n)]. *)
Definition make_chan {A} (n : nat) : chan A := Chan n [] false.

(** [close(c)]. *)
Definition chan_close {A} (c : chan A) : chan A :=
  Chan (ch_cap c) (ch_buf c) true.

(** A send that does not block: it succeeds when the buffer has room. *)
Definition chan_try_send {A} (x : A) (c : chan A) : option (chan A) :=
  if decide (length (ch_buf c) < ch_cap c)%nat
  then Some (Chan (ch_cap c) (ch_buf c ++ [x]) (ch_closed c))
  else None.

(** Taking the oldest buffered value; [None] when nothing is buffered. *)
Definition chan_recv {A} (c : chan A) : option (A * chan A) :=
  match ch_buf c with
  | [] => None
  | x :: rest => Some (x, Chan (ch_cap c) rest (ch_closed c))
  end.

(** A receive [<-c] as a [select] case: it yields a buffered value, or the
    zero value ([None]) of a closed channel, and blocks ([None] outside)
    otherwise. *)
Definition chan_receive {A} (c : chan A) : option (option A * chan A) :=
  match chan_recv c with
  | Some (x, c') => Some (Some x, c')
  | None => if ch_closed c then Some (None, c) else None
  end.

(** ** The worker interface (lines 183-185) *)

(** A value of type [interface{}]. *)
Inductive any :=
  | AnyNil
  | AnyString (s : string)
  | AnyInt (z : Z)
  | AnyBool (x : bool).

(** [map[string]interface{}]. *)
Abbreviation payload := (gmap string any).

Record Worker := {
  Send : ctx_id -> payload -> payload * option error
}.

(** ** What is written to [b.out] *)

(** [printStatus] and [printRatePrompt] are defined elsewhere in the
    package; their output is kept as one item each. *)
Inductive out_item :=
  | Line (s : string)            (* [fmt.Fprintln] / [fmt.Fprintf] of one line *)
  | Status (final : bool)        (* [b.printStatus(final)] *)
  | RatePrompt.                  (* [b.printRatePrompt()] *)

(** ** The key type of the Skip Set (line 28) *)

(** [farmhash.Uint128]: two 64-bit halves. *)
Record Uint128 := U128 { First : Z; Second : Z }.

Global Instance Uint128_eq_dec : EqDecision Uint128.
Proof. solve_decision. Defined.

Global Instance Uint128_countable : Countable Uint128.
Proof.
  refine (inj_countable' (fun u => (First u, Second u))
                         (fun p => U128 p.1 p.2) _).
  by intros [].
Defined.

(** ** The [Blaster] struct (lines 22-55) *)

(** Of [configDef], declared elsewhere in the package, [Start] reads the
    field [Data] only. *)
Record configDef := { Data : string }.

Record Blaster := {
  config : configDef;
  rate : float;
  skip : gset Uint128;
  dataHeaders : list string;
  cancel : CancelFunc;
  out : list out_item;
  dataFinishedChannel : chan unit;
  workersFinishedChannel : chan unit;
  changeRateChannel : chan float;
  signalChannel : chan Signal;
  mainWait : nat;
  workerWait : nat;
  workerTypes : gmap string (unit -> Worker);
  errorsIgnored : Z;
  err : option error
}.

(** Field updates. *)
Definition set_config (x : configDef) (b : Blaster) : Blaster :=
  {| config := x; rate := rate b; skip := skip b; dataHeaders := dataHeaders b;
     cancel := cancel b; out := out b;
     dataFinishedChannel := dataFinishedChannel b;
     workersFinishedChannel := workersFinishedChannel b;
     changeRateChannel := changeRateChannel b; signalChannel := signalChannel b;
     mainWait := mainWait b; workerWait := workerWait b;
     workerTypes := workerTypes b; errorsIgnored := errorsIgnored b;
     err := err b |}.

Definition set_rate (x : float) (b : Blaster) : Blaster :=
  {| config := config b; rate := x; skip := skip b; dataHeaders := dataHeaders b;
     cancel := cancel b; out := out b;
     dataFinishedChannel := dataFinishedChannel b;
     workersFinishedChannel := workersFinishedChannel b;
     changeRateChannel := changeRateChannel b; signalChannel := signalChannel b;
     mainWait := mainWait b; workerWait := workerWait b;
     workerTypes := workerTypes b; errorsIgnored := errorsIgnored b;
     err := err b |}.

Definition set_dataHeaders (x : list string) (b : Blaster) : Blaster :=
  {| config := config b; rate := rate b; skip := skip b; dataHeaders := x;
     cancel := cancel b; out := out b;
     dataFinishedChannel := dataFinishedChannel b;
     workersFinishedChannel := workersFinishedChannel b;
     changeRateChannel := changeRateChannel b; signalChannel := signalChannel b;
     mainWait := mainWait b; workerWait := workerWait b;
     workerTypes := workerTypes b; errorsIgnored := errorsIgnored b;
     err := err b |}.

Definition set_out (x : list out_item) (b : Blaster) : Blaster :=
  {| config := config b; rate := rate b; skip := skip b;
     dataHeaders := dataHeaders b; cancel := cancel b; out := x;
     dataFinishedChannel := dataFinishedChannel b;
     workersFinishedChannel := workersFinishedChannel b;
     changeRateChannel := changeRateChannel b; signalChannel := signalChannel b;
     mainWait := mainWait b; workerWait := workerWait b;
     workerTypes := workerTypes b; errorsIgnored := errorsIgnored b;
     err := err b |}.

Definition set_dataFinishedChannel (x : chan unit) (b : Blaster) : Blaster :=
  {| config := config b; rate := rate b; skip := skip b;
     dataHeaders := dataHeaders b; cancel := cancel b; out := out b;
     dataFinishedChannel := x;
     workersFinishedChannel := workersFinishedChannel b;
     changeRateChannel := changeRateChannel b; signalChannel := signalChannel b;
     mainWait := mainWait b; workerWait := workerWait b;
     workerTypes := workerTypes b; errorsIgnored := errorsIgnored b;
     err := err b |}.

Definition set_workersFinishedChannel (x : chan unit) (b : Blaster) : Blaster :=
  {| config := config b; rate := rate b; skip := skip b;
     dataHeaders := dataHeaders b; cancel := cancel b; out := out b;
     dataFinishedChannel := dataFinishedChannel b;
     workersFinishedChannel := x;
     changeRateChannel := changeRateChannel b; signalChannel := signalChannel b;
     mainWait := mainWait b; workerWait := workerWait b;
     workerTypes := workerTypes b; errorsIgnored := errorsIgnored b;
     err := err b |}.

Definition set_changeRateChannel (x : chan float) (b : Blaster) : Blaster :=
  {| config := config b; rate := rate b; skip := skip b;
     dataHeaders := dataHeaders b; cancel := cancel b; out := out b;
     dataFinishedChannel := dataFinishedChannel b;
     workersFinishedChannel := workersFinishedChannel b;
     changeRateChannel := x; signalChannel := signalChannel b;
     mainWait := mainWait b; workerWait := workerWait b;
     workerTypes := workerTypes b; errorsIgnored := errorsIgnored b;
     err := err b |}.

Definition set_signalChannel (x : chan Signal) (b : Blaster) : Blaster :=
  {| config := config b; rate := rate b; skip := skip b;
     dataHeaders := dataHeaders b; cancel := cancel b; out := out b;
     dataFinishedChannel := dataFinishedChannel b;
     workersFinishedChannel := workersFinishedChannel b;
     changeRateChannel := changeRateChannel b; signalChannel := x;
     mainWait := mainWait b; workerWait := workerWait b;
     workerTypes := workerTypes b; errorsIgnored := errorsIgnored b;
     err := err b |}.

Definition set_mainWait (x : nat) (b : Blaster) : Blaster :=
  {| config := config b; rate := rate b; skip := skip b;
     dataHeaders := dataHeaders b; cancel := cancel b; out := out b;
     dataFinishedChannel := dataFinishedChannel b;
     workersFinishedChannel := workersFinishedChannel b;
     changeRateChannel := changeRateChannel b; signalChannel := signalChannel b;
     mainWait := x; workerWait := workerWait b;
     workerTypes := workerTypes b; errorsIgnored := errorsIgnored b;
     err := err b |}.

Definition set_workerWait (x : nat) (b : Blaster) : Blaster :=
  {| config := config b; rate := rate b; skip := skip b;
     dataHeaders := dataHeaders b; cancel := cancel b; out := out b;
     dataFinishedChannel := dataFinishedChannel b;
     workersFinishedChannel := workersFinishedChannel b;
     changeRateChannel := changeRateChannel b; signalChannel := signalChannel b;
     mainWait := mainWait b; workerWait := x;
     workerTypes := workerTypes b; errorsIgnored := errorsIgnored b;
     err := err b |}.

Definition set_workerTypes (x : gmap string (unit -> Worker)) (b : Blaster)
  : Blaster :=
  {| config := config b; rate := rate b; skip := skip b;
     dataHeaders := dataHeaders b; cancel := cancel b; out := out b;
     dataFinishedChannel := dataFinishedChannel b;
     workersFinishedChannel := workersFinishedChannel b;
     changeRateChannel := changeRateChannel b; signalChannel := signalChannel b;
     mainWait := mainWait b; workerWait := workerWait b;
     workerTypes := x; errorsIgnored := errorsIgnored b;
     err := err b |}.

Definition set_errorsIgnored (x : Z) (b : Blaster) : Blaster :=
  {| config := config b; rate := rate b; skip := skip b;
     dataHeaders := dataHeaders b; cancel := cancel b; out := out b;
     dataFinishedChannel := dataFinishedChannel b;
     workersFinishedChannel := workersFinishedChannel b;
     changeRateChannel := changeRateChannel b; signalChannel := signalChannel b;
     mainWait := mainWait b; workerWait := workerWait b;
     workerTypes := workerTypes b; errorsIgnored := x;
     err := err b |}.

Definition set_err (x : option error) (b : Blaster) : Blaster :=
  {| config := config b; rate := rate b; skip := skip b;
     dataHeaders := dataHeaders b; cancel := cancel b; out := out b;
     dataFinishedChannel := dataFinishedChannel b;
     workersFinishedChannel := workersFinishedChannel b;
     changeRateChannel := changeRateChannel b; signalChannel := signalChannel b;
     mainWait := mainWait b; workerWait := workerWait b;
     workerTypes := workerTypes b; errorsIgnored := errorsIgnored b;
     err := x |}.

(** [fmt.Fprintln(b.out, s)] and friends append to the stream. *)
Definition write (items : list out_item) (b : Blaster) : Blaster :=
  set_out (out b ++ items) b.

(** ** [New] (lines 66-97) *)

(** The struct literal of lines 68-82 and the signal channel of line 86;
    fields the literal does not set have Go's zero value. *)
Definition New_blaster (cancel : CancelFunc) : Blaster :=
  {| config := {| Data := "" |};
     rate := 0%float;
     skip := ∅;
     dataHeaders := [];
     cancel := cancel;
     out := [];
     dataFinishedChannel := make_chan 0;
     workersFinishedChannel := make_chan 0;
     changeRateChannel := make_chan 1;
     signalChannel := make_chan 1;
     mainWait := 0;
     workerWait := 0;
     workerTypes := ∅;
     errorsIgnored := 0;
     err := None |}.

(** ** [RegisterWorkerType] (lines 179-181) *)

Definition RegisterWorkerType (key : string) (workerFunc : unit -> Worker)
    (b : Blaster) : Blaster :=
  set_workerTypes (<[key := workerFunc]> (workerTypes b)) b.

(** ** The state of a run *)

(** The loops that [start] launches (lines 138-144). *)
Inductive component :=
  | TickerLoop | MainLoop | ErrorLoop | Workers | LogLoop | StatusLoop
  | RateLoop.

(** The two cases of the [select] of lines 149-152. *)
Inductive select_case := CtxDone | DataFinished.

(** The two wait groups (lines 47-48). *)
Inductive waitgroup := WorkerWait | MainWait.

(** The calls [Start] defers (lines 122 and 127). *)
Inductive deferred := CloseDataFile | FlushAndCloseLog.

(** What the goroutine running [Start] has done so far. *)
Inductive event :=
  | EvLoadConfigViper
  | EvOpenDataFile
  | EvOpenLogAndInit
  | EvAddSegment
  | EvStartLoop (c : component)
  | EvPrintRatePrompt
  | EvSelect (c : select_case)
  | EvWait (wg : waitgroup) (counter : nat)
  | EvCloseWorkersFinished
  | EvSummary
  | EvDeferred (d : deferred)
  | EvReturn (r : option error).

Global Instance component_eq_dec : EqDecision component.
Proof. solve_decision. Defined.
Global Instance select_case_eq_dec : EqDecision select_case.
Proof. solve_decision. Defined.
Global Instance waitgroup_eq_dec : EqDecision waitgroup.
Proof. solve_decision. Defined.
Global Instance deferred_eq_dec : EqDecision deferred.
Proof. solve_decision. Defined.
Global Instance event_eq_dec : EqDecision event.
Proof. solve_decision. Defined.
Global Instance out_item_eq_dec : EqDecision out_item.
Proof. solve_decision. Defined.

(** Program points of [Start] (lines 104-132) and [start] (134-177). *)
Inductive pc :=
  | PNewWriter                    (* 107 *)
  | PLoadConfig                   (* 109 *)
  | PCheckData                    (* 113 *)
  | POpenDataFile                 (* 117 *)
  | PDeferCloseData               (* 121-122 *)
  | POpenLog                      (* 124 *)
  | PDeferFlushLog                (* 127 *)
  | PRateInput                    (* 129 *)
  | PAddSegment                   (* 136 *)
  | PStartLoop (c : component)    (* 138-144 *)
  | PRatePrompt                   (* 146 *)
  | PSelect                       (* 149 *)
  | PSayWaitingWorkers            (* 154 *)
  | PWorkerWait                   (* 155 *)
  | PSayWorkersFinished           (* 156 *)
  | PCloseWorkersFinished         (* 159 *)
  | PSayWaitingProcesses          (* 161 *)
  | PMainWait                     (* 162 *)
  | PSayProcessesFinished         (* 163 *)
  | PSummary                      (* 165-174 *)
  | PReturn (r : option error)    (* a [return]: the deferred calls run *)
  | PDone (r : option error).     (* [Start] has returned [r] *)

(** Program points of the goroutine of [New] (lines 88-94). *)
Inductive watcher_pc :=
  | WSelect                       (* 89 *)
  | WCancel                       (* 91 *)
  | WExit.

(** The two cases of the [select] of lines 89-93. *)
Inductive watch_case := SignalReceived | NewCtxDone.

(** What the calls into the rest of the package return during one run.
    [loadConfigViper] fills [b.config]; [openDataFile] returns the headers. *)
Record World := {
  loadConfigViper : configDef * option error;
  openDataFile : list string * option error;
  openLogAndInit : option error
}.

Record System := Sys {
  blaster : Blaster;
  done : gset ctx_id;        (* contexts whose [Done] channel is closed *)
  notifying : bool;          (* [signal.Notify] in force (87), until [signal.Stop] (100) *)
  ctx_new : ctx_id;          (* the [ctx] argument of [New] *)
  ctx_run : ctx_id;          (* the [ctx] argument of [Start] *)
  at_pc : pc;
  defers : list deferred;    (* pending deferred calls, last deferred first *)
  watcher : watcher_pc;
  trace : list event
}.

Definition upd (f : Blaster -> Blaster) (s : System) : System :=
  Sys (f (blaster s)) (done s) (notifying s) (ctx_new s) (ctx_run s)
      (at_pc s) (defers s) (watcher s) (trace s).

Definition goto (p : pc) (s : System) : System :=
  Sys (blaster s) (done s) (notifying s) (ctx_new s) (ctx_run s)
      p (defers s) (watcher s) (trace s).

Definition emit (e : event) (s : System) : System :=
  Sys (blaster s) (done s) (notifying s) (ctx_new s) (ctx_run s)
      (at_pc s) (defers s) (watcher s) (trace s ++ [e]).

Definition set_defers (ds : list deferred) (s : System) : System :=
  Sys (blaster s) (done s) (notifying s) (ctx_new s) (ctx_run s)
      (at_pc s) ds (watcher s) (trace s).

Definition set_watcher (p : watcher_pc) (s : System) : System :=
  Sys (blaster s) (done s) (notifying s) (ctx_new s) (ctx_run s)
      (at_pc s) (defers s) p (trace s).

Definition set_notifying (x : bool) (s : System) : System :=
  Sys (blaster s) (done s) x (ctx_new s) (ctx_run s)
      (at_pc s) (defers s) (watcher s) (trace s).

(** Calling the [CancelFunc] of context [c] closes its [Done] channel; a
    closed channel stays closed. *)
Definition cancel_ctx (c : ctx_id) (s : System) : System :=
  Sys (blaster s) ({[c]} ∪ done s) (notifying s) (ctx_new s) (ctx_run s)
      (at_pc s) (defers s) (watcher s) (trace s).

(** The state right after [New(ctx, cancel)] returns. *)
Definition New (ctx : ctx_id) (cancel : CancelFunc) (ctx_start : ctx_id)
  : System :=
  Sys (New_blaster cancel) ∅ true ctx ctx_start PNewWriter [] WSelect [].

(** ** [Start] and [start] (lines 104-177) *)

(** The message of line 114. *)
Definition no_data_file : error :=
  errors_New "No data file specified. Use --config to view current config.".

(** The order of the calls of lines 138-144. *)
Definition next_loop (c : component) : pc :=
  match c with
  | TickerLoop => PStartLoop MainLoop
  | MainLoop => PStartLoop ErrorLoop
  | ErrorLoop => PStartLoop Workers
  | Workers => PStartLoop LogLoop
  | LogLoop => PStartLoop StatusLoop
  | StatusLoop => PStartLoop RateLoop
  | RateLoop => PRatePrompt
  end.

Definition wg_counter (wg : waitgroup) (b : Blaster) : nat :=
  match wg with
  | WorkerWait => workerWait b
  | MainWait => mainWait b
  end.

Definition wg_set (wg : waitgroup) (n : nat) (b : Blaster) : Blaster :=
  match wg with
  | WorkerWait => set_workerWait n b
  | MainWait => set_mainWait n b
  end.

(** The line of 169, [%d] being the decimal form of the counter. *)
Definition ignored_line (n : Z) : string :=
  pretty n +:+ " errors were ignored because we were already exiting with an error.".

(** The line of 171, [%v] being the error's message. *)
Definition fatal_line (e : error) : string := "Fatal error: " +:+ e.

(** The final summary (lines 165-174). *)
Definition summary (b : Blaster) : list out_item :=
  match err b with
  | Some e =>
      [Line ""]
      ++ (let errorsIgnored := errorsIgnored b in
          if decide (errorsIgnored > 0)
          then [Line (ignored_line errorsIgnored)]
          else [])
      ++ [Line (fatal_line e)]
  | None => [Status true]
  end.

(** One statement of the goroutine running [Start]; [None] when it blocks
    (a [Wait] on a non-zero counter), has returned, or is at the [select],
    which [select_step] takes. *)
Definition coord_step (w : World) (s : System) : option System :=
  let b := blaster s in
  match at_pc s with
  | PNewWriter => Some (goto PLoadConfig s)
  | PLoadConfig =>
      let s := emit EvLoadConfigViper (upd (set_config (loadConfigViper w).1) s) in
      match (loadConfigViper w).2 with
      | Some e => Some (goto (PReturn (Some e)) s)
      | None => Some (goto PCheckData s)
      end
  | PCheckData =>
      if decide (Data (config b) = "")
      then Some (goto (PReturn (Some no_data_file)) s)
      else Some (goto POpenDataFile s)
  | POpenDataFile =>
      let s := emit EvOpenDataFile s in
      match (openDataFile w).2 with
      | Some e => Some (goto (PReturn (Some e)) s)
      | None => Some (goto PDeferCloseData s)
      end
  | PDeferCloseData =>
      Some (goto POpenLog
              (set_defers (CloseDataFile :: defers s)
                 (upd (set_dataHeaders (openDataFile w).1) s)))
  | POpenLog =>
      let s := emit EvOpenLogAndInit s in
      match openLogAndInit w with
      | Some e => Some (goto (PReturn (Some e)) s)
      | None => Some (goto PDeferFlushLog s)
      end
  | PDeferFlushLog =>
      Some (goto PRateInput (set_defers (FlushAndCloseLog :: defers s) s))
  | PRateInput => Some (goto PAddSegment s)
  | PAddSegment => Some (goto (PStartLoop TickerLoop) (emit EvAddSegment s))
  | PStartLoop c => Some (goto (next_loop c) (emit (EvStartLoop c) s))
  | PRatePrompt =>
      Some (goto PSelect (emit EvPrintRatePrompt (upd (write [RatePrompt]) s)))
  | PSelect => None
  | PSayWaitingWorkers =>
      Some (goto PWorkerWait
              (upd (write [Line "Waiting for workers to finish..."]) s))
  | PWorkerWait =>
      let n := wg_counter WorkerWait b in
      if decide (n = 0%nat)
      then Some (goto PSayWorkersFinished (emit (EvWait WorkerWait n) s))
      else None
  | PSayWorkersFinished =>
      Some (goto PCloseWorkersFinished
              (upd (write [Line "All workers finished."]) s))
  | PCloseWorkersFinished =>
      if ch_closed (workersFinishedChannel b)
      then None                   (* closing a closed channel panics *)
      else Some (goto PSayWaitingProcesses
                   (emit EvCloseWorkersFinished
                      (upd (set_workersFinishedChannel
                              (chan_close (workersFinishedChannel b))) s)))
  | PSayWaitingProcesses =>
      Some (goto PMainWait
              (upd (write [Line "Waiting for processes to finish..."]) s))
  | PMainWait =>
      let n := wg_counter MainWait b in
      if decide (n = 0%nat)
      then Some (goto PSayProcessesFinished (emit (EvWait MainWait n) s))
      else None
  | PSayProcessesFinished =>
      Some (goto PSummary (upd (write [Line "All processes finished."]) s))
  | PSummary =>
      Some (goto (PReturn None) (emit EvSummary (upd (write (summary b)) s)))
  | PReturn r =>
      match defers s with
      | d :: rest => Some (emit (EvDeferred d) (set_defers rest s))
      | [] => Some (goto (PDone r) (emit (EvReturn r) s))
      end
  | PDone _ => None
  end.

(** The [select] of lines 149-152: a case can be taken when its channel
    is ready. *)
Definition select_step (c : select_case) (s : System) : option System :=
  match at_pc s with
  | PSelect =>
      match c with
      | CtxDone =>
          if decide (ctx_run s ∈ done s)
          then Some (goto PSayWaitingWorkers (emit (EvSelect CtxDone) s))
          else None
      | DataFinished =>
          match chan_receive (dataFinishedChannel (blaster s)) with
          | Some (_, c') =>
              Some (goto PSayWaitingWorkers
                      (emit (EvSelect DataFinished)
                         (upd (set_dataFinishedChannel c') s)))
          | None => None
          end
      end
  | _ => None
  end.

(** ** The goroutine of [New] (lines 88-94) *)

Definition watch_select (c : watch_case) (s : System) : option System :=
  match watcher s with
  | WSelect =>
      match c with
      | SignalReceived =>
          match chan_receive (signalChannel (blaster s)) with
          | Some (_, c') =>
              Some (set_watcher WCancel (upd (set_signalChannel c') s))
          | None => None
          end
      | NewCtxDone =>
          if decide (ctx_new s ∈ done s)
          then Some (set_watcher WExit s)
          else None
      end
  | _ => None
  end.

(** Line 91: [b.cancel()]. *)
Definition watch_cancel (s : System) : option System :=
  match watcher s with
  | WCancel => Some (set_watcher WExit (cancel_ctx (cancel (blaster s)) s))
  | _ => None
  end.

(** ** [Exit] (lines 99-102) *)

Definition Exit (s : System) : System :=
  cancel_ctx (cancel (blaster s)) (set_notifying false s).

(** ** The rest of the engine *)

(** Modelled from the spec: the Error Escalator's [Report(err)]; its loop
    ([startErrorLoop]) is not part of [blaster.go].  The first invocation
    records [err] as the engine's fatal error and triggers global
    cancellation; every subsequent invocation atomically increments the
    ignored-error counter and discards the error. *)
Definition Report (e : error) (s : System) : System :=
  match err (blaster s) with
  | None => cancel_ctx (cancel (blaster s)) (upd (set_err (Some e)) s)
  | Some _ =>
      upd (fun b => set_errorsIgnored (wrap64 (errorsIgnored b + 1)) b) s
  end.

(** Modelled from the spec: the Rate Controller's [SetRate(newRate)]; the
    code that sends on [changeRateChannel] is not part of [blaster.go].  The
    request goes into the pending-change slot; if a change is already
    pending (the slot is full) it is overwritten, the oldest pending value
    making room for the new one. *)
Definition SetRate (newRate : float) (b : Blaster) : Blaster :=
  let c := changeRateChannel b in
  match chan_try_send newRate c with
  | Some c' => set_changeRateChannel c' b
  | None =>
      match chan_recv c with
      | Some (_, c0) =>
          match chan_try_send newRate c0 with
          | Some c' => set_changeRateChannel c' b
          | None => b
          end
      | None => b
      end
  end.

(** What the other goroutines, the callers of the package and the
    operating system do to the shared state. *)
Inductive env_action :=
  | OsInterrupt                   (* the operating system sends [os.Interrupt] *)
  | CallExit                      (* [b.Exit()] *)
  | CallCancel (c : ctx_id)       (* some holder of [c]'s [CancelFunc] calls it *)
  | CallRegisterWorkerType (key : string) (workerFunc : unit -> Worker)
  | CallReport (e : error)        (* a failure reaches the Error Escalator *)
  | CloseDataFinished             (* the Dispatch Loop signals end of data *)
  | WaitAdd (wg : waitgroup) (n : nat)
  | WaitDone (wg : waitgroup)
  | CallSetRate (r : float)
  | TakeRate                      (* the Rate Controller takes the pending change *)
  | WriteOut (item : out_item).   (* another writer of [b.out] *)

Definition env_step (a : env_action) (s : System) : option System :=
  let b := blaster s in
  match a with
  | OsInterrupt =>
      (* [signal.Notify] relays without blocking: a signal that finds the
         buffer full is dropped.  Without [Notify] the process dies. *)
      if notifying s then
        match chan_try_send Interrupt (signalChannel b) with
        | Some c => Some (upd (set_signalChannel c) s)
        | None => Some s
        end
      else None
  | CallExit => Some (Exit s)
  | CallCancel c => Some (cancel_ctx c s)
  | CallRegisterWorkerType key workerFunc =>
      Some (upd (RegisterWorkerType key workerFunc) s)
  | CallReport e => Some (Report e s)
  | CloseDataFinished =>
      if ch_closed (dataFinishedChannel b) then None
      else Some (upd (set_dataFinishedChannel
                        (chan_close (dataFinishedChannel b))) s)
  | WaitAdd wg n => Some (upd (wg_set wg (wg_counter wg b + n)) s)
  | WaitDone wg =>
      match wg_counter wg b with
      | O => None                 (* a negative counter panics *)
      | S n => Some (upd (wg_set wg n) s)
      end
  | CallSetRate r => Some (upd (SetRate r) s)
  | TakeRate =>
      match chan_recv (changeRateChannel b) with
      | Some (r, c) =>
          Some (upd (fun b => set_rate r (set_changeRateChannel c b)) s)
      | None => None
      end
  | WriteOut item => Some (upd (write [item]) s)
  end.

(** ** Runs *)

Inductive label :=
  | Coord                          (* next statement of [Start] / [start] *)
  | CoordSelect (c : select_case)  (* a case of the [select] of 149-152 *)
  | WatchSelect (c : watch_case)   (* a case of the [select] of 89-93 *)
  | WatchCancel                    (* line 91 *)
  | Env (a : env_action).

Definition step (w : World) (l : label) (s : System) : option System :=
  match l with
  | Coord => coord_step w s
  | CoordSelect c => select_step c s
  | WatchSelect c => watch_select c s
  | WatchCancel => watch_cancel s
  | Env a => env_step a s
  end.

Fixpoint exec (w : World) (ls : list label) (s : System) : option System :=
  match ls with
  | [] => Some s
  | l :: ls' =>
      match step w l s with
      | Some s' => exec w ls' s'
      | None => None
      end
  end.

(** The states a run can be in, from any [New]. *)
Definition reachable (w : World) (s : System) : Prop :=
  ∃ ctx cancel ctx_start ls, exec w ls (New ctx cancel ctx_start) = Some s.

(** A world in which the configuration names a data file of three columns
    and the source and the sink open. *)
Definition sample_world : World :=
  {| loadConfigViper := ({| Data := "data.csv" |}, None);
     openDataFile := (["a"; "b"; "c"], None);
     openLogAndInit := None |}.

(** The statements of [Start] and [start] up to the [select]. *)
Definition startup_labels : list label := replicate 17 Coord.

(** The statements from the [select] to the [return] of [start]. *)
Definition shutdown_labels : list label := replicate 8 Coord.

(** The two deferred calls and the return of [Start]. *)
Definition return_labels : list label := replicate 3 Coord.

(** ** The shape of a run's trace *)

(** How startup ends, as decided by the calls of lines 109-126. *)
Inductive startup :=
  | FailConfig (e : error)
  | FailNoData
  | FailOpenData (e : error)
  | FailOpenLog (e : error)
  | Started.

Definition startup_of (w : World) : startup :=
  match (loadConfigViper w).2 with
  | Some e => FailConfig e
  | None =>
      if decide (Data (loadConfigViper w).1 = "") then FailNoData
      else match (openDataFile w).2 with
           | Some e => FailOpenData e
           | None =>
               match openLogAndInit w with
               | Some e => FailOpenLog e
               | None => Started
               end
           end
  end.

(** The value [Start] returns. *)
Definition result_of (w : World) : option error :=
  match startup_of w with
  | FailConfig e | FailOpenData e | FailOpenLog e => Some e
  | FailNoData => Some no_data_file
  | Started => None
  end.

Definition opened : list event :=
  [EvLoadConfigViper; EvOpenDataFile; EvOpenLogAndInit].

(** The loops in the order in which [start] launches them. *)
Definition loops : list component :=
  [TickerLoop; MainLoop; ErrorLoop; Workers; LogLoop; StatusLoop; RateLoop].

Definition launched : list event :=
  EvAddSegment :: map EvStartLoop loops ++ [EvPrintRatePrompt].

Definition shut_down (c : select_case) : list event :=
  [EvSelect c; EvWait WorkerWait 0; EvCloseWorkersFinished;
   EvWait MainWait 0; EvSummary].

Definition loops_before (c : component) : list component :=
  match c with
  | TickerLoop => []
  | MainLoop => [TickerLoop]
  | ErrorLoop => [TickerLoop; MainLoop]
  | Workers => [TickerLoop; MainLoop; ErrorLoop]
  | LogLoop => [TickerLoop; MainLoop; ErrorLoop; Workers]
  | StatusLoop => [TickerLoop; MainLoop; ErrorLoop; Workers; LogLoop]
  | RateLoop => [TickerLoop; MainLoop; ErrorLoop; Workers; LogLoop; StatusLoop]
  end.

(** The trace on arrival at a program point before any [return]; [c] is
    the case the [select] took. *)
Definition history (c : select_case) (p : pc) : list event :=
  match p with
  | PNewWriter | PLoadConfig => []
  | PCheckData | POpenDataFile => [EvLoadConfigViper]
  | PDeferCloseData | POpenLog => [EvLoadConfigViper; EvOpenDataFile]
  | PDeferFlushLog | PRateInput | PAddSegment => opened
  | PStartLoop l => opened ++ EvAddSegment :: map EvStartLoop (loops_before l)
  | PRatePrompt => opened ++ EvAddSegment :: map EvStartLoop loops
  | PSelect => opened ++ launched
  | PSayWaitingWorkers | PWorkerWait => opened ++ launched ++ take 1 (shut_down c)
  | PSayWorkersFinished | PCloseWorkersFinished =>
      opened ++ launched ++ take 2 (shut_down c)
  | PSayWaitingProcesses | PMainWait => opened ++ launched ++ take 3 (shut_down c)
  | PSayProcessesFinished | PSummary => opened ++ launched ++ take 4 (shut_down c)
  | PReturn _ | PDone _ => []
  end.

(** The trace when a [return] statement is reached. *)
Definition before_return (w : World) (c : select_case) : list event :=
  match startup_of w with
  | FailConfig _ | FailNoData => [EvLoadConfigViper]
  | FailOpenData _ => [EvLoadConfigViper; EvOpenDataFile]
  | FailOpenLog _ => opened
  | Started => opened ++ launched ++ shut_down c
  end.

(** The deferred calls pending at that [return]. *)
Definition all_defers (w : World) : list deferred :=
  match startup_of w with
  | FailConfig _ | FailNoData | FailOpenData _ => []
  | FailOpenLog _ => [CloseDataFile]
  | Started => [FlushAndCloseLog; CloseDataFile]
  end.

(** The trace of a whole call of [Start]. *)
Definition full_trace (w : World) (c : select_case) : list event :=
  before_return w c ++ map EvDeferred (all_defers w) ++ [EvReturn (result_of w)].

(** How far startup has got at a program point. *)
Definition stage (p : pc) : nat :=
  match p with
  | PNewWriter | PLoadConfig => 0
  | PCheckData => 1
  | POpenDataFile => 2
  | PDeferCloseData | POpenLog => 3
  | _ => 4
  end.

Definition stage_ok (w : World) (n : nat) (cfg : configDef) : Prop :=
  (1 ≤ n → (loadConfigViper w).2 = None ∧ cfg = (loadConfigViper w).1)%nat
  ∧ (2 ≤ n → Data (loadConfigViper w).1 ≠ "")%nat
  ∧ (3 ≤ n → (openDataFile w).2 = None)%nat
  ∧ (4 ≤ n → openLogAndInit w = None)%nat.

Definition defers_at (p : pc) : list deferred :=
  match p with
  | PNewWriter | PLoadConfig | PCheckData | POpenDataFile | PDeferCloseData => []
  | POpenLog | PDeferFlushLog => [CloseDataFile]
  | _ => [FlushAndCloseLog; CloseDataFile]
  end.

(** The invariant of the goroutine running [Start]: where it is decides
    what it has done. *)
Definition coord_inv (w : World) (s : System) : Prop :=
  match at_pc s with
  | PReturn r =>
      r = result_of w
      ∧ ∃ c ran, all_defers w = ran ++ defers s
                 ∧ trace s = before_return w c ++ map EvDeferred ran
  | PDone r => r = result_of w ∧ ∃ c, trace s = full_trace w c
  | p =>
      stage_ok w (stage p) (config (blaster s))
      ∧ defers s = defers_at p
      ∧ ∃ c, trace s = history c p
  end.

(** The workers-finished channel is closed by line 159 and by nothing else. *)
Definition closed_inv (s : System) : Prop :=
  ch_closed (workersFinishedChannel (blaster s)) = true
  ↔ EvCloseWorkersFinished ∈ trace s.

(** The fatal-error slot and the ignored-error counter. *)
Definition error_inv (s : System) : Prop :=
  0 ≤ errorsIgnored (blaster s) < uint64_max
  ∧ (errorsIgnored (blaster s) > 0 → err (blaster s) ≠ None).

(** The pending-change slot. *)
Definition rate_slot_inv (s : System) : Prop :=
  ch_cap (changeRateChannel (blaster s)) = 1%nat
  ∧ (length (ch_buf (changeRateChannel (blaster s))) ≤ 1)%nat.

(** The loops launched so far, in launch order. *)
Definition started_loops (t : list event) : list component :=
  omap (fun e => match e with EvStartLoop c => Some c | _ => None end) t.

(** The position of the first occurrence of an event. *)
Fixpoint position (e : event) (t : list event) : option nat :=
  match t with
  | [] => None
  | x :: t' => if decide (x = e) then Some 0%nat else S <$> position e t'
  end.

(** [a] has happened, and [b] not before it. *)
Definition precedes (a b : event) (t : list event) : Prop :=
  match position a t, position b t with
  | Some i, Some j => (i < j)%nat
  | Some _, None => True
  | None, _ => False
  end.

Global Instance precedes_dec a b t : Decision (precedes a b t).
Proof. unfold precedes. repeat case_match; apply _. Defined.

(** The startup order as the specification lists it: Rate Controller,
    Dispatch Loop, Worker Pool, Logging Pipeline, Error Escalator, Status
    Reporter. *)
Definition spec_startup_order : list component :=
  [TickerLoop; MainLoop; Workers; LogLoop; ErrorLoop; StatusLoop].

(** A list of loops is launched in the given order. *)
Fixpoint launched_in_order (cs : list component) (t : list event) : Prop :=
  match cs with
  | a :: (b :: _) as rest =>
      precedes (EvStartLoop a) (EvStartLoop b) t ∧ launched_in_order rest t
  | _ => True
  end.

(** ** More invariants and frames *)

(** What the goroutine of [New] and the environment leave alone. *)
Definition same_coord (s s' : System) : Prop :=
  at_pc s' = at_pc s ∧ defers s' = defers s ∧ trace s' = trace s
  ∧ config (blaster s') = config (blaster s)
  ∧ workersFinishedChannel (blaster s') = workersFinishedChannel (blaster s)
  ∧ ctx_run s' = ctx_run s ∧ ctx_new s' = ctx_new s
  ∧ cancel (blaster s') = cancel (blaster s).

(** What the two goroutines of [blaster.go] leave alone. *)
Definition same_engine (s s' : System) : Prop :=
  err (blaster s') = err (blaster s)
  ∧ errorsIgnored (blaster s') = errorsIgnored (blaster s)
  ∧ changeRateChannel (blaster s') = changeRateChannel (blaster s)
  ∧ workerTypes (blaster s') = workerTypes (blaster s)
  ∧ cancel (blaster s') = cancel (blaster s)
  ∧ done s ⊆ done s'.

(** The signal channel keeps the capacity [New] gave it. *)
Definition signal_inv (s : System) : Prop :=
  ch_cap (signalChannel (blaster s)) = 1%nat.

(** The goroutine of [New] ends only on a cancellation. *)
Definition watcher_inv (s : System) : Prop :=
  watcher s = WExit → cancel (blaster s) ∈ done s ∨ ctx_new s ∈ done s.

(** When a [select] case can be taken. *)
Definition select_ready (c : select_case) (s : System) : Prop :=
  match c with
  | CtxDone => ctx_run s ∈ done s
  | DataFinished =>
      ch_closed (dataFinishedChannel (blaster s)) = true
      ∨ ch_buf (dataFinishedChannel (blaster s)) ≠ []
  end.

(** ** Bursts of requests, the watcher's remaining steps, the shutdown lines *)

(** A burst of requests, oldest first. *)
Definition SetRates (rs : list float) (b : Blaster) : Blaster :=
  foldl (fun b r => SetRate r b) b rs.

(** What the goroutine of [New] still does once a signal is buffered. *)
Definition watcher_labels (p : watcher_pc) : list label :=
  match p with
  | WSelect => [WatchSelect SignalReceived; WatchCancel]
  | WCancel => [WatchCancel]
  | WExit => []
  end.

(** The lines [start] prints between the [select] and the summary. *)
Definition shutdown_lines : list out_item :=
  [Line "Waiting for workers to finish..."; Line "All workers finished.";
   Line "Waiting for processes to finish..."; Line "All processes finished."].

(** Everything [Start] and [start] print before the summary (lines 146,
    154, 156, 161 and 163). *)
Definition progress_items : list out_item := RatePrompt :: shutdown_lines.

(** A shutdown with work in flight: [start] announces the wait on the
    executors, the [n] executors still running finish, [start] gets past
    [workerWait.Wait], closes the workers-finished channel and announces the
    wait on the consumer loops, the [k] loops still running end, and [start]
    gets past [mainWait.Wait] and prints the summary. *)
Definition shutdown_labels_in_flight (n k : nat) : list label :=
  [Coord] ++ replicate n (Env (WaitDone WorkerWait))
  ++ replicate 4 Coord ++ replicate k (Env (WaitDone MainWait))
  ++ replicate 3 Coord.

(** ** Sample runs *)

(** A world in which the configuration names no data file. *)
Definition no_data_world : World :=
  {| loadConfigViper := ({| Data := "" |}, None);
     openDataFile := ([], None);
     openLogAndInit := None |}.

(** A whole run: startup, an executor registers, a first failure and a
    second one are reported, the [select] fires on the cancellation, the
    executor ends, shutdown, return. *)
Definition sample_labels : list label :=
  startup_labels
  ++ [Env (WaitAdd WorkerWait 1); Env (CallReport "boom");
      Env (CallReport "again"); CoordSelect CtxDone;
      Env (WaitDone WorkerWait)]
  ++ shutdown_labels ++ return_labels.

(** The sample run with one failure reported and none ignored, stopped
    right before the summary. *)
Definition sample_fatal_labels : list label :=
  startup_labels ++ [Env (CallReport "boom"); CoordSelect CtxDone]
  ++ replicate 7 Coord.

(** The state of the sample run when the rate prompt has been printed. *)
Definition sample_launched : option System :=
  exec sample_world startup_labels (New 0 0 0)%nat.

(** The sample run in mid-flight: startup, then two executors and the
    logging and error loops are at work, and a status line is out. *)
Definition sample_in_flight_labels : list label :=
  startup_labels
  ++ [Env (WaitAdd WorkerWait 2); Env (WaitAdd MainWait 2);
      Env (WriteOut (Status false))].

(** ** More of the signal channel, and lists of registrations *)

(** The goroutine of [New] has not received a signal: it is not about to
    call [b.cancel], and the signal channel is empty and open. *)
Definition no_signal (s : System) : Prop :=
  watcher s ≠ WCancel
  ∧ ch_buf (signalChannel (blaster s)) = []
  ∧ ch_closed (signalChannel (blaster s)) = false.

(** The signal channel never holds more than the one signal it has room
    for. *)
Definition signal_slot_inv (s : System) : Prop :=
  ch_cap (signalChannel (blaster s)) = 1%nat
  ∧ (length (ch_buf (signalChannel (blaster s))) ≤ 1)%nat.

(** A list of registrations, first to last. *)
Definition RegisterWorkerTypes (regs : list (string * (unit → Worker)))
    (b : Blaster) : Blaster :=
  foldl (fun b reg => RegisterWorkerType reg.1 reg.2 b) b regs.

(** ** [ThreadSafeWriter] (lines 195-210) *)

(** The goroutines that call [Write] are interleaved step by step; the
    underlying [io.Writer] takes the bytes of a call one at a time, so that
    two calls inside it at once would mix their bytes. *)
Module Writer.

(** Where a call of [Write(p)] is (lines 206-210). *)
Inductive call_pc :=
  | AtLock                                    (* 207: [t.m.Lock()] *)
  | InWrite (k : nat)                         (* 209: inside [t.w.Write(p)],
                                                 [k] bytes taken so far *)
  | AtUnlock (n : nat) (err : option error)   (* 208: the deferred
                                                 [t.m.Unlock()] is due *)
  | Returned (n : nat) (err : option error).  (* [Write] has returned *)

Global Instance call_pc_eq_dec : EqDecision call_pc.
Proof. solve_decision. Defined.

(** A call of [Write]: its argument and where it is. *)
Record call := Call { p : list Byte.byte; at_pc : call_pc }.

(** The struct of lines 201-204: the underlying writer, as the bytes it has
    received, and the mutex, as whether it is locked. *)
Record ThreadSafeWriter := { w : list Byte.byte; m : bool }.

(** Lines 195-199. *)
Definition NewThreadSafeWriter (w : list Byte.byte) : ThreadSafeWriter :=
  {| w := w; m := false |}.

(** The writer and the calls of [Write] made on it so far, one goroutine
    each. *)
Record state := { t : ThreadSafeWriter; calls : list call }.

Inductive label :=
  | Lock (i : nat)                  (* 207 *)
  | WriteByte (i : nat)             (* 209: the underlying writer takes the
                                       next byte of [p] *)
  | WriteReturn (i : nat)           (* 209: it returns [len(p), nil] *)
  | WriteFail (i : nat) (e : error) (* 209: it returns what it took and [e] *)
  | Unlock (i : nat).               (* 208 *)

Definition move (i : nat) (c : call) (pc : call_pc) (s : state)
  : list call :=
  <[i := Call (p c) pc]> (calls s).

(** One step of the call [i]; [None] when that step cannot be taken now
    ([Lock] on a locked mutex blocks). *)
Definition step (l : label) (s : state) : option state :=
  match l with
  | Lock i =>
      match calls s !! i with
      | Some c =>
          match at_pc c with
          | AtLock =>
              if m (t s) then None
              else Some {| t := {| w := w (t s); m := true |};
                           calls := move i c (InWrite 0) s |}
          | _ => None
          end
      | None => None
      end
  | WriteByte i =>
      match calls s !! i with
      | Some c =>
          match at_pc c with
          | InWrite k =>
              match p c !! k with
              | Some b => Some {| t := {| w := w (t s) ++ [b]; m := m (t s) |};
                                  calls := move i c (InWrite (S k)) s |}
              | None => None
              end
          | _ => None
          end
      | None => None
      end
  | WriteReturn i =>
      match calls s !! i with
      | Some c =>
          match at_pc c with
          | InWrite k =>
              if decide (k = length (p c))
              then Some {| t := t s; calls := move i c (AtUnlock k None) s |}
              else None
          | _ => None
          end
      | None => None
      end
  | WriteFail i e =>
      match calls s !! i with
      | Some c =>
          match at_pc c with
          | InWrite k =>
              Some {| t := t s; calls := move i c (AtUnlock k (Some e)) s |}
          | _ => None
          end
      | None => None
      end
  | Unlock i =>
      match calls s !! i with
      | Some c =>
          match at_pc c with
          | AtUnlock n err =>
              if m (t s)
              then Some {| t := {| w := w (t s); m := false |};
                           calls := move i c (Returned n err) s |}
              else None             (* unlocking an unlocked mutex is fatal *)
          | _ => None
          end
      | None => None
      end
  end.

Fixpoint exec (ls : list label) (s : state) : option state :=
  match ls with
  | [] => Some s
  | l :: ls' =>
      match step l s with
      | Some s' => exec ls' s'
      | None => None
      end
  end.

(** A fresh writer over [w0] and one pending call per argument. *)
Definition init (w0 : list Byte.byte) (ps : list (list Byte.byte)) : state :=
  {| t := NewThreadSafeWriter w0; calls := (fun p => Call p AtLock) <$> ps |}.

(** How many bytes of its argument a call has handed over. *)
Definition progress (c : call) : nat :=
  match at_pc c with
  | AtLock => 0
  | InWrite k => k
  | AtUnlock n _ | Returned n _ => n
  end.

(** The bytes the underlying writer has received from call [i]. *)
Definition received (s : state) (i : nat) : list Byte.byte :=
  match calls s !! i with
  | Some c => take (progress c) (p c)
  | None => []
  end.

Definition holding (c : call) : bool :=
  match at_pc c with
  | InWrite _ | AtUnlock _ _ => true
  | _ => false
  end.

Definition returned (c : call) : bool :=
  match at_pc c with
  | Returned _ _ => true
  | _ => false
  end.

(** The calls that have passed [Lock], in the order [order]: all but
    possibly the last have returned, the mutex is locked exactly when the
    last one has not, and the underlying writer has received their bytes
    call after call. *)
Definition serialized (w0 : list Byte.byte) (s : state)
    (finished : list nat) (holder : option nat) : Prop :=
  NoDup (finished ++ option_list holder)
  ∧ Forall (fun i => ∃ c, calls s !! i = Some c ∧ returned c = true) finished
  ∧ match holder with
    | Some h => m (t s) = true ∧ ∃ c, calls s !! h = Some c ∧ holding c = true
    | None => m (t s) = false
    end
  ∧ (∀ i c, calls s !! i = Some c → at_pc c ≠ AtLock →
       i ∈ finished ++ option_list holder)
  ∧ (∀ i c, calls s !! i = Some c → (progress c ≤ length (p c))%nat)
  ∧ w (t s) = w0 ++ concat (received s <$> finished ++ option_list holder).


(** The underlying writer reports no error only for a whole write. *)
Definition whole_or_error (c : call) : Prop :=
  match at_pc c with
  | AtUnlock n None | Returned n None => n = length (p c)
  | _ => True
  end.

End Writer.

(** ** More sample runs *)

(** A world in which the log cannot be opened. *)
Definition no_log_world : World :=
  {| loadConfigViper := ({| Data := "data.csv" |}, None);
     openDataFile := (["a"; "b"; "c"], None);
     openLogAndInit := Some "open log: permission denied" |}.

(** Two calls of [Write], of the bytes "ab" and of the byte "c": the second
    gets the mutex first, the first blocks until it is released. *)
Definition sample_writes : list Writer.label :=
  [Writer.Lock 1; Writer.WriteByte 1; Writer.WriteReturn 1; Writer.Unlock 1;
   Writer.Lock 0; Writer.WriteByte 0; Writer.WriteByte 0;
   Writer.WriteReturn 0; Writer.Unlock 0]%nat.

Definition sample_payloads : list (list Byte.byte) :=
  [[Byte.x61; Byte.x62]; [Byte.x63]].

(** * Properties *)

(** ** The invariant of the goroutine running [Start] *)

(** Splits [stage_ok] into the facts known at the current stage. *)
Ltac use_stage H :=
  let H1 := fresh "Hload" in
  let H2 := fresh "Hdata" in
  let H3 := fresh "Hopen" in
  let H4 := fresh "Hlog" in
  destruct H as (H1 & H2 & H3 & H4);
  first [ specialize (H1 ltac:(simpl; lia)); destruct H1 as [H1 ?] | clear H1 ];
  first [ specialize (H2 ltac:(simpl; lia)) | clear H2 ];
  first [ specialize (H3 ltac:(simpl; lia)) | clear H3 ];
  first [ specialize (H4 ltac:(simpl; lia)) | clear H4 ].

(** Computes [startup_of] and what depends on it from those facts. *)
Ltac startup_known :=
  unfold full_trace, result_of, before_return, all_defers, startup_of;
  repeat match goal with
         | H : config _ = (loadConfigViper _).1, E : Data (config _) = _ |- _ =>
             rewrite H in E
         | H : (loadConfigViper _).2 = _ |- _ => rewrite H
         | H : (openDataFile _).2 = _ |- _ => rewrite H
         | H : openLogAndInit _ = _ |- _ => rewrite H
         end;
  try case_decide; try congruence; simpl.

Lemma coord_inv_coord_step w s s' :
  coord_inv w s → coord_step w s = Some s' → coord_inv w s'.
Proof.
  intros Hinv Hstep. unfold coord_inv in Hinv. unfold coord_step in Hstep.
  destruct (at_pc s) eqn:Hpc; try destruct c.
  all: try (destruct Hinv as (Hst & Hdf & c0 & Htr); unfold stage_ok in Hst;
            use_stage Hst).
  all: try (destruct Hinv as (-> & c0 & ran & Hall & Htr)).
  all: repeat case_match; simplify_eq.
  all: repeat match goal with H : decide _ = _ |- _ => clear H end.
  all: unfold coord_inv, stage_ok; simpl in *; rewrite ?Hpc.
  all: repeat match goal with
         | H : workerWait _ = 0%nat |- _ => rewrite H; clear H
         | H : mainWait _ = 0%nat |- _ => rewrite H; clear H
         end.
  all: try (rewrite ?Hdf, ?Htr; simpl; split_and!; try lia; try done;
            try (by exists c0)).
  all: try (startup_known; first [ done | by exists c0, [] ]).
  - exists c0. unfold full_trace. rewrite app_nil_r in Hall.
    by rewrite Hall, app_assoc.
  - exists c0, (ran ++ [d]). by rewrite Hall, map_app, <- !app_assoc.
Qed.

Lemma coord_inv_select_step w c s s' :
  coord_inv w s → select_step c s = Some s' → coord_inv w s'.
Proof.
  intros Hinv Hstep. unfold coord_inv in Hinv. unfold select_step in Hstep.
  destruct (at_pc s) eqn:Hpc; try done.
  destruct Hinv as (Hst & Hdf & c0 & Htr).
  repeat case_match; simplify_eq.
  all: unfold coord_inv; simpl; rewrite Hdf, Htr; split_and!; try done.
  all: eexists; reflexivity.
Qed.

Lemma coord_inv_New w ctx cancel ctx_start :
  coord_inv w (New ctx cancel ctx_start).
Proof.
  unfold coord_inv, stage_ok; simpl.
  split_and!; try lia; try done. by exists CtxDone.
Qed.

(** The invariant reads four things of the state only. *)
Lemma coord_inv_frame w s s' :
  at_pc s' = at_pc s → defers s' = defers s → trace s' = trace s →
  config (blaster s') = config (blaster s) →
  coord_inv w s → coord_inv w s'.
Proof.
  unfold coord_inv. by intros -> -> -> ->.
Qed.

Lemma watch_select_frame c s s' :
  watch_select c s = Some s' → same_coord s s'.
Proof.
  unfold watch_select, same_coord. intros H.
  repeat case_match; simplify_eq; done.
Qed.

Lemma watch_cancel_frame s s' : watch_cancel s = Some s' → same_coord s s'.
Proof.
  unfold watch_cancel, same_coord. intros H.
  repeat case_match; simplify_eq; done.
Qed.

Lemma env_step_frame a s s' : env_step a s = Some s' → same_coord s s'.
Proof.
  unfold env_step, same_coord, Exit, Report, SetRate. intros H.
  destruct a as [| | | | | |wg ?|wg| | |]; try destruct wg;
    repeat case_match; simplify_eq; simpl; try done.
  repeat case_match; done.
Qed.

Lemma coord_inv_step w l s s' :
  coord_inv w s → step w l s = Some s' → coord_inv w s'.
Proof.
  intros Hinv Hstep. destruct l; simpl in Hstep.
  - eauto using coord_inv_coord_step.
  - eauto using coord_inv_select_step.
  - apply watch_select_frame in Hstep as (? & ? & ? & ? & _).
    eauto using coord_inv_frame.
  - apply watch_cancel_frame in Hstep as (? & ? & ? & ? & _).
    eauto using coord_inv_frame.
  - apply env_step_frame in Hstep as (? & ? & ? & ? & _).
    eauto using coord_inv_frame.
Qed.

(** An invariant of every step holds in every reachable state. *)
Lemma exec_invariant (P : System → Prop) w ls s s' :
  (∀ l s1 s2, P s1 → step w l s1 = Some s2 → P s2) →
  P s → exec w ls s = Some s' → P s'.
Proof.
  intros Hstep. revert s.
  induction ls as [|l ls IH]; simpl; intros s HP Hexec.
  - by simplify_eq.
  - destruct (step w l s) as [s1|] eqn:Hl; [|done]. eauto.
Qed.

Lemma reachable_coord_inv w s : reachable w s → coord_inv w s.
Proof.
  intros (ctx & cancel & ctx_start & ls & Hexec).
  eapply exec_invariant; [apply coord_inv_step | apply coord_inv_New | done].
Qed.

(** ** The workers-finished channel *)

Lemma closed_inv_step w l s s' :
  closed_inv s → step w l s = Some s' → closed_inv s'.
Proof.
  unfold closed_inv. intros Hinv Hstep. destruct l; simpl in Hstep.
  - unfold coord_step in Hstep.
    destruct (at_pc s) eqn:Hpc; repeat case_match; simplify_eq; simpl;
      rewrite ?elem_of_app, ?list_elem_of_singleton; intuition congruence.
  - unfold select_step in Hstep.
    repeat case_match; simplify_eq; simpl;
      rewrite ?elem_of_app, ?list_elem_of_singleton; intuition congruence.
  - apply watch_select_frame in Hstep as (_ & _ & -> & _ & -> & _). done.
  - apply watch_cancel_frame in Hstep as (_ & _ & -> & _ & -> & _). done.
  - apply env_step_frame in Hstep as (_ & _ & -> & _ & -> & _). done.
Qed.

Lemma reachable_closed_inv w s : reachable w s → closed_inv s.
Proof.
  intros (ctx & cancel & ctx_start & ls & Hexec).
  eapply exec_invariant; [apply closed_inv_step | | done].
  unfold closed_inv; simpl. split; [done | by intros ?%elem_of_nil].
Qed.

(** ** The fatal-error slot *)

Lemma coord_step_engine w s s' : coord_step w s = Some s' → same_engine s s'.
Proof.
  unfold coord_step, same_engine. intros H.
  destruct (at_pc s); repeat case_match; simplify_eq; done.
Qed.

Lemma select_step_engine c s s' : select_step c s = Some s' → same_engine s s'.
Proof.
  unfold select_step, same_engine. intros H.
  repeat case_match; simplify_eq; done.
Qed.

Lemma watch_select_engine c s s' :
  watch_select c s = Some s' → same_engine s s'.
Proof.
  unfold watch_select, same_engine. intros H.
  repeat case_match; simplify_eq; done.
Qed.

Lemma watch_cancel_engine s s' : watch_cancel s = Some s' → same_engine s s'.
Proof.
  unfold watch_cancel, same_engine. intros H.
  repeat case_match; simplify_eq; simpl. split_and!; try done. set_solver.
Qed.

Lemma wrap64_range z : 0 ≤ wrap64 z < uint64_max.
Proof. unfold wrap64, uint64_max. apply Z.mod_pos_bound. lia. Qed.

Lemma error_inv_Report e s : error_inv s → error_inv (Report e s).
Proof.
  unfold error_inv, Report. intros [Hrange Hpos].
  destruct (err (blaster s)) eqn:Herr; simpl; rewrite ?Herr.
  - split; [apply wrap64_range | done].
  - done.
Qed.

Lemma error_inv_env_step a s s' :
  error_inv s → env_step a s = Some s' → error_inv s'.
Proof.
  intros Hinv Hstep. destruct a; simpl in Hstep;
    try (simplify_eq; by apply error_inv_Report).
  all: unfold error_inv, Exit, SetRate in *;
    try destruct wg; repeat case_match; simplify_eq; simpl; try done.
  repeat case_match; done.
Qed.

Lemma error_inv_frame s s' : same_engine s s' → error_inv s → error_inv s'.
Proof. unfold error_inv. by intros (-> & -> & _). Qed.

Lemma error_inv_step w l s s' :
  error_inv s → step w l s = Some s' → error_inv s'.
Proof.
  intros Hinv Hstep. destruct l; simpl in Hstep.
  - eauto using error_inv_frame, coord_step_engine.
  - eauto using error_inv_frame, select_step_engine.
  - eauto using error_inv_frame, watch_select_engine.
  - eauto using error_inv_frame, watch_cancel_engine.
  - eauto using error_inv_env_step.
Qed.

Lemma reachable_error_inv w s : reachable w s → error_inv s.
Proof.
  intros (ctx & cancel & ctx_start & ls & Hexec).
  eapply exec_invariant; [apply error_inv_step | | done].
  unfold error_inv, uint64_max; simpl. lia.
Qed.

(** C3: in every reachable state a positive ignored-error counter implies
    a recorded fatal error; a step that changes the counter is taken with
    the fatal error already recorded; and a failure reported to an engine
    that has its fatal error keeps that error and adds one to the counter
    (a [uint64], so modulo 2^64). *)
Theorem errorsIgnored_only_after_fatal w s :
  reachable w s →
  (errorsIgnored (blaster s) > 0 → err (blaster s) ≠ None)
  ∧ (∀ l s', step w l s = Some s' →
       errorsIgnored (blaster s') ≠ errorsIgnored (blaster s) →
       err (blaster s) ≠ None ∧ err (blaster s') = err (blaster s))
  ∧ (∀ e first, err (blaster s) = Some first →
       err (blaster (Report e s)) = Some first
       ∧ errorsIgnored (blaster (Report e s))
         = wrap64 (errorsIgnored (blaster s) + 1)).
Proof.
  intros Hreach. split_and!.
  - by apply reachable_error_inv in Hreach as [_ ?].
  - intros l s' Hstep Hneq. destruct l; simpl in Hstep.
    + apply coord_step_engine in Hstep as (_ & ? & _). congruence.
    + apply select_step_engine in Hstep as (_ & ? & _). congruence.
    + apply watch_select_engine in Hstep as (_ & ? & _). congruence.
    + apply watch_cancel_engine in Hstep as (_ & ? & _). congruence.
    + destruct a as [| | | |e| |wg ?|wg| | |]; simpl in Hstep;
        unfold Exit, Report in *; try destruct wg;
        repeat case_match; simplify_eq; simpl in *; try done.
      exfalso. apply Hneq. unfold SetRate. by repeat case_match.
  - intros e first Hfirst. unfold Report. by rewrite Hfirst.
Qed.

(** ** The pending rate change *)

Lemma SetRate_slot r b :
  ch_cap (changeRateChannel b) = 1%nat →
  (length (ch_buf (changeRateChannel b)) ≤ 1)%nat →
  ch_cap (changeRateChannel (SetRate r b)) = 1%nat
  ∧ ch_buf (changeRateChannel (SetRate r b)) = [r].
Proof.
  unfold SetRate, chan_try_send, chan_recv. intros Hcap Hlen.
  destruct (ch_buf (changeRateChannel b)) as [|x [|y l]] eqn:Hbuf;
    simpl in *; rewrite ?Hcap; [| |lia].
  - rewrite decide_True by lia. done.
  - rewrite decide_False by lia. rewrite decide_True by (simpl; lia). done.
Qed.

Lemma rate_slot_inv_env_step a s s' :
  rate_slot_inv s → env_step a s = Some s' → rate_slot_inv s'.
Proof.
  unfold rate_slot_inv. intros [Hcap Hlen] Hstep.
  destruct a as [| | | | | |wg ?|wg|r| |]; simpl in Hstep;
    unfold Exit, Report, chan_recv in *; try destruct wg;
    repeat case_match; simplify_eq; simpl in *; try done.
  - destruct (SetRate_slot r (blaster s)) as [-> ->]; simpl; auto.
  - split; [done | lia].
Qed.

Lemma rate_slot_inv_step w l s s' :
  rate_slot_inv s → step w l s = Some s' → rate_slot_inv s'.
Proof.
  intros Hinv Hstep. destruct l; simpl in Hstep;
    [unfold rate_slot_inv in *..|].
  - apply coord_step_engine in Hstep as (_ & _ & -> & _). done.
  - apply select_step_engine in Hstep as (_ & _ & -> & _). done.
  - apply watch_select_engine in Hstep as (_ & _ & -> & _). done.
  - apply watch_cancel_engine in Hstep as (_ & _ & -> & _). done.
  - eauto using rate_slot_inv_env_step.
Qed.

Lemma reachable_rate_slot_inv w s : reachable w s → rate_slot_inv s.
Proof.
  intros (ctx & cancel & ctx_start & ls & Hexec).
  eapply exec_invariant; [apply rate_slot_inv_step | | done].
  unfold rate_slot_inv; simpl. lia.
Qed.

Lemma SetRates_slot rs b :
  ch_cap (changeRateChannel b) = 1%nat →
  (length (ch_buf (changeRateChannel b)) ≤ 1)%nat →
  ch_cap (changeRateChannel (SetRates rs b)) = 1%nat
  ∧ (length (ch_buf (changeRateChannel (SetRates rs b))) ≤ 1)%nat.
Proof.
  unfold SetRates. revert b.
  induction rs as [|r rs IH]; simpl; intros b Hcap Hlen; [done|].
  destruct (SetRate_slot r b Hcap Hlen) as [Hcap' Hbuf'].
  apply IH; [done | rewrite Hbuf'; simpl; lia].
Qed.

(** C5: in every reachable state the pending-change slot has capacity one
    and holds at most one value, and after any burst of [SetRate] requests
    it holds exactly the last one: earlier requests are not queued. *)
Theorem SetRate_latest_wins w s rs newRate :
  reachable w s →
  ch_cap (changeRateChannel (blaster s)) = 1%nat
  ∧ (length (ch_buf (changeRateChannel (blaster s))) ≤ 1)%nat
  ∧ ch_buf (changeRateChannel (SetRates (rs ++ [newRate]) (blaster s)))
    = [newRate].
Proof.
  intros [Hcap Hlen]%reachable_rate_slot_inv. split_and!; try done.
  unfold SetRates. rewrite foldl_app. simpl.
  destruct (SetRates_slot rs (blaster s) Hcap Hlen) as [Hcap' Hlen'].
  by destruct (SetRate_slot newRate _ Hcap' Hlen').
Qed.

(** ** The worker-type registry *)

(** C10: [RegisterWorkerType] stores the factory under the key whatever the
    registry held; a second registration under the same key replaces the
    first; every other key keeps its registration. *)
Theorem RegisterWorkerType_stores key workerFunc workerFunc' b :
  workerTypes (RegisterWorkerType key workerFunc b) !! key = Some workerFunc
  ∧ workerTypes (RegisterWorkerType key workerFunc'
                   (RegisterWorkerType key workerFunc b)) !! key
    = Some workerFunc'
  ∧ RegisterWorkerType key workerFunc' (RegisterWorkerType key workerFunc b)
    = RegisterWorkerType key workerFunc' b
  ∧ ∀ other, other ≠ key →
      workerTypes (RegisterWorkerType key workerFunc b) !! other
      = workerTypes b !! other.
Proof.
  unfold RegisterWorkerType; simpl. split_and!.
  - apply lookup_insert_eq.
  - apply lookup_insert_eq.
  - unfold set_workerTypes; simpl. by rewrite insert_insert_eq.
  - intros other Hne. by apply lookup_insert_ne.
Qed.

(** ** The trace of a run is a prefix of the trace of the whole call *)

Lemma coord_inv_prefix w s :
  coord_inv w s → ∃ c, trace s `prefix_of` full_trace w c.
Proof.
  unfold coord_inv. intros Hinv.
  destruct (at_pc s) eqn:Hpc; try destruct c.
  all: first
    [ destruct Hinv as (-> & c0 & ran & Hall & Htr); exists c0;
      unfold full_trace; rewrite Htr, Hall, map_app, !app_assoc;
      by do 2 apply prefix_app_r
    | destruct Hinv as (-> & c0 & Htr); exists c0; by rewrite Htr
    | destruct Hinv as (Hst & Hdf & c0 & Htr); unfold stage_ok in Hst;
      use_stage Hst; rewrite Htr; exists c0; startup_known;
      repeat case_match; simplify_eq; simpl; by eexists ].
Qed.

(** A member of a prefix, first met at a known place of the whole list. *)
Lemma prefix_cut {A} (l before after : list A) x :
  l `prefix_of` before ++ x :: after → x ∈ l → x ∉ before →
  ∃ rest, l = before ++ x :: rest ∧ rest `prefix_of` after.
Proof.
  revert l. induction before as [|y before IH]; simpl; intros l Hpre Hin Hnot.
  - destruct l as [|z l]; [by apply elem_of_nil in Hin|].
    apply prefix_cons_inv_1 in Hpre as Hz. apply prefix_cons_inv_2 in Hpre.
    subst. eauto.
  - destruct l as [|z l]; [by apply elem_of_nil in Hin|].
    apply prefix_cons_inv_1 in Hpre as Hz. apply prefix_cons_inv_2 in Hpre.
    subst. apply not_elem_of_cons in Hnot as [Hne Hnot].
    apply elem_of_cons in Hin as [?|Hin]; [done|].
    destruct (IH l Hpre Hin Hnot) as (rest & -> & ?). eauto.
Qed.

Lemma reachable_trace_prefix w s :
  reachable w s → ∃ c, trace s `prefix_of` full_trace w c.
Proof. intros Hreach. by apply coord_inv_prefix, reachable_coord_inv. Qed.

Lemma prefix_elem_of {A} (l1 l2 : list A) x :
  l1 `prefix_of` l2 → x ∈ l1 → x ∈ l2.
Proof. intros [k ->] Hin. apply elem_of_app. by left. Qed.

(** Membership in a list of events that differ from [x] at the head. *)
Ltac absurd_elem H :=
  repeat (apply elem_of_cons in H as [H|H]; [discriminate H|]);
  by apply elem_of_nil in H.

(** ** Shutdown order *)

(** The close of line 159 comes after the [select] and the wait on the
    executors. *)
Lemma close_after_workers w s :
  reachable w s →
  EvCloseWorkersFinished ∈ trace s →
  ∃ c rest,
    trace s = opened ++ launched
              ++ [EvSelect c; EvWait WorkerWait 0; EvCloseWorkersFinished]
              ++ rest.
Proof.
  intros Hreach Hin.
  destruct (reachable_trace_prefix w s Hreach) as [c Hpre]. exists c.
  pose proof (prefix_elem_of _ _ _ Hpre Hin) as Hfull.
  unfold full_trace, before_return, all_defers, result_of in *.
  destruct (startup_of w); simpl in Hfull; try absurd_elem Hfull.
  destruct (prefix_cut (trace s)
              (opened ++ launched ++ take 2 (shut_down c))
              (drop 3 (shut_down c) ++ map EvDeferred
                 [FlushAndCloseLog; CloseDataFile] ++ [EvReturn None])
              EvCloseWorkersFinished) as (rest & -> & _); try done.
  - intros H; simpl in H. absurd_elem H.
  - by exists rest.
Qed.

(** The summary comes after the whole shutdown sequence, and once. *)
Lemma summary_after_shutdown w s :
  reachable w s →
  EvSummary ∈ trace s →
  ∃ c rest,
    trace s = opened ++ launched
              ++ [EvSelect c; EvWait WorkerWait 0; EvCloseWorkersFinished;
                  EvWait MainWait 0; EvSummary]
              ++ rest
    ∧ (EvSummary ∉ rest).
Proof.
  intros Hreach Hin.
  destruct (reachable_trace_prefix w s Hreach) as [c Hpre]. exists c.
  pose proof (prefix_elem_of _ _ _ Hpre Hin) as Hfull.
  unfold full_trace, before_return, all_defers, result_of in *.
  destruct (startup_of w); simpl in Hfull; try absurd_elem Hfull.
  destruct (prefix_cut (trace s)
              (opened ++ launched ++ take 4 (shut_down c))
              (map EvDeferred [FlushAndCloseLog; CloseDataFile]
                 ++ [EvReturn None])
              EvSummary) as (rest & -> & Hrest); try done.
  - intros H; simpl in H. absurd_elem H.
  - exists rest. split; [done|].
    intros H. pose proof (prefix_elem_of _ _ _ Hrest H) as H'.
    simpl in H'. absurd_elem H'.
Qed.

(** Once the summary is in the trace, the workers-finished channel is
    closed. *)
Lemma summary_after_close w s :
  reachable w s →
  EvSummary ∈ trace s →
  ch_closed (workersFinishedChannel (blaster s)) = true.
Proof.
  intros Hreach Hin.
  apply (reachable_closed_inv w s Hreach).
  destruct (summary_after_shutdown w s Hreach Hin) as (c & rest & -> & _).
  rewrite !elem_of_app. right. right. left.
  apply (bool_decide_unpack _). vm_compute. exact I.
Qed.

Lemma string_length_app (a b : string) :
  String.length (a +:+ b) = (String.length a + String.length b)%nat.
Proof. induction a as [|x a IH]; simpl; [done | by rewrite IH]. Qed.

(** The summary is never empty. *)
Lemma summary_nonempty b : summary b ≠ [].
Proof. unfold summary. by destruct (err b). Qed.

(** No item of a summary is one of the progress items. *)
Lemma summary_not_progress b item :
  item ∈ summary b → item ∉ progress_items.
Proof.
  unfold summary, progress_items, shutdown_lines.
  destruct (err b) as [e|]; simpl.
  - intros Hin Hprog.
    assert (item = Line "" ∨ item = Line (ignored_line (errorsIgnored b))
            ∨ item = Line (fatal_line e)) as Hitem.
    { case_decide; simpl in Hin;
        repeat (apply elem_of_cons in Hin as [Hin|Hin]; [by auto|]);
        by apply elem_of_nil in Hin. }
    destruct Hitem as [-> | [-> | ->]].
    + absurd_elem Hprog.
    + assert (67 ≤ String.length (ignored_line (errorsIgnored b)))%nat as Hlen.
      { unfold ignored_line. rewrite string_length_app. simpl. lia. }
      repeat (apply elem_of_cons in Hprog as [Hprog|Hprog];
              [try discriminate Hprog;
               injection Hprog as Hprog; rewrite Hprog in Hlen;
               simpl in Hlen; lia|]).
      by apply elem_of_nil in Hprog.
    + unfold fatal_line in Hprog. simpl in Hprog. absurd_elem Hprog.
  - intros ->%list_elem_of_singleton Hprog. absurd_elem Hprog.
Qed.

(** What a statement other than the summary adds to the trace and to the
    output. *)
Lemma coord_step_progress w s s' :
  coord_step w s = Some s' → at_pc s ≠ PSummary →
  (EvSummary ∈ trace s' → EvSummary ∈ trace s)
  ∧ ∃ items, out (blaster s') = out (blaster s) ++ items
             ∧ ∀ item, item ∈ items → item ∈ progress_items.
Proof.
  intros Hstep Hpc. unfold coord_step in Hstep.
  destruct (at_pc s) eqn:Hat; try done; repeat case_match; simplify_eq; simpl.
  all: split;
    [ first [ done
            | intros [?|Hin%list_elem_of_singleton]%elem_of_app;
              [done | discriminate Hin] ]
    | ].
  all: first
    [ exists []; split; [by rewrite app_nil_r | by intros ? ?%elem_of_nil]
    | eexists; split; [reflexivity|];
      intros item ->%list_elem_of_singleton;
      apply (bool_decide_unpack _); vm_compute; exact I ].
Qed.

(** C1: the workers-finished channel is closed exactly when line 159 has
    run, and that is after the [select] has fired and the wait on the
    executors has returned with a zero counter; once the summary is there,
    the channel is closed and the [select], the wait on the executors, the
    close and the wait on the consumer loops (zero counter) have come before
    it, in this order, and the summary comes once.  Statement by statement:
    [start] does not get past the [select] on its own, and a case of the
    [select] fires only when it is ready and prints nothing; the waits
    proceed only on a zero counter; the close finds the channel open, after
    the wait on the executors, and leaves it closed; the wait on the
    consumer loops and the summary find it closed; the statement at the
    summary appends the summary, which is not empty, to the output; every
    other statement appends progress items only, none of which is an item
    of a summary. *)
Theorem start_shutdown_order w s :
  reachable w s →
  (ch_closed (workersFinishedChannel (blaster s)) = true
   ↔ EvCloseWorkersFinished ∈ trace s)
  ∧ (EvCloseWorkersFinished ∈ trace s →
       ∃ c rest,
         trace s = opened ++ launched
                   ++ [EvSelect c; EvWait WorkerWait 0; EvCloseWorkersFinished]
                   ++ rest)
  ∧ (EvSummary ∈ trace s →
       ch_closed (workersFinishedChannel (blaster s)) = true
       ∧ ∃ c rest,
           trace s = opened ++ launched
                     ++ [EvSelect c; EvWait WorkerWait 0; EvCloseWorkersFinished;
                         EvWait MainWait 0; EvSummary]
                     ++ rest
           ∧ (EvSummary ∉ rest))
  ∧ (∀ s', step w Coord s = Some s' →
       match at_pc s with
       | PSelect => False
       | PWorkerWait =>
           workerWait (blaster s) = 0%nat
           ∧ trace s' = trace s ++ [EvWait WorkerWait 0]
       | PCloseWorkersFinished =>
           (∃ c, trace s = opened ++ launched
                           ++ [EvSelect c; EvWait WorkerWait 0])
           ∧ ch_closed (workersFinishedChannel (blaster s)) = false
           ∧ ch_closed (workersFinishedChannel (blaster s')) = true
           ∧ trace s' = trace s ++ [EvCloseWorkersFinished]
       | PMainWait =>
           mainWait (blaster s) = 0%nat
           ∧ ch_closed (workersFinishedChannel (blaster s)) = true
           ∧ trace s' = trace s ++ [EvWait MainWait 0]
       | PSummary =>
           (∃ c, trace s = opened ++ launched
                           ++ [EvSelect c; EvWait WorkerWait 0;
                               EvCloseWorkersFinished; EvWait MainWait 0])
           ∧ ch_closed (workersFinishedChannel (blaster s)) = true
           ∧ trace s' = trace s ++ [EvSummary]
           ∧ out (blaster s') = out (blaster s) ++ summary (blaster s)
           ∧ summary (blaster s) ≠ []
       | _ => True
       end
       ∧ (at_pc s ≠ PSummary →
          (EvSummary ∈ trace s' → EvSummary ∈ trace s)
          ∧ ∃ items, out (blaster s') = out (blaster s) ++ items
                     ∧ ∀ item, item ∈ items → item ∈ progress_items))
  ∧ (∀ c s', step w (CoordSelect c) s = Some s' →
       at_pc s = PSelect ∧ select_ready c s
       ∧ trace s' = trace s ++ [EvSelect c]
       ∧ out (blaster s') = out (blaster s))
  ∧ (∀ b item, item ∈ summary b → item ∉ progress_items).
Proof.
  intros Hreach.
  pose proof (reachable_closed_inv w s Hreach) as Hclosed.
  pose proof (reachable_coord_inv w s Hreach) as Hinv.
  split_and!.
  - exact Hclosed.
  - by apply (close_after_workers w).
  - intros Hin. split; [by apply (summary_after_close w)|].
    by apply (summary_after_shutdown w).
  - simpl. intros s' Hstep. split; [|by eapply coord_step_progress].
    unfold coord_inv in Hinv. unfold closed_inv in Hclosed.
    unfold coord_step in Hstep.
    destruct (at_pc s) eqn:Hpc; try done.
    + simpl in Hstep. case_decide as Hn; [|done]. simplify_eq.
      simpl in *. by rewrite Hn.
    + destruct Hinv as (_ & _ & c & Htr). simpl in Htr.
      destruct (ch_closed (workersFinishedChannel (blaster s))) eqn:Hc;
        simplify_eq.
      simpl. split_and!; eauto.
    + destruct Hinv as (_ & _ & c & Htr). simpl in Htr.
      simpl in Hstep. case_decide as Hn; [|done]. simplify_eq.
      simpl in *. rewrite Hn. split_and!; try done. apply Hclosed. rewrite Htr.
      apply (bool_decide_unpack _). vm_compute. exact I.
    + destruct Hinv as (_ & _ & c & Htr). simpl in Htr.
      simplify_eq. simpl. split_and!; eauto using summary_nonempty.
      apply Hclosed. rewrite Htr.
      apply (bool_decide_unpack _). vm_compute. exact I.
  - simpl. unfold select_step, select_ready, chan_receive, chan_recv.
    intros c' s' Hstep.
    destruct (at_pc s); try done. split; [done|].
    destruct c'; repeat case_match; simplify_eq; simpl; auto.
  - apply summary_not_progress.
Qed.

(** ** Startup order *)

Lemma prefix_omap {A B} (f : A → option B) (l1 l2 : list A) :
  l1 `prefix_of` l2 → omap f l1 `prefix_of` omap f l2.
Proof. intros [k ->]. rewrite omap_app. by apply prefix_app_r. Qed.

(** C6, counterexample: in the sample run every loop is launched, the
    Error Escalator's loop before the Worker Pool and before the Logging
    Pipeline, so the loops are not launched in the order the specification
    lists. *)
Lemma startup_order_counterexample :
  ∃ s, sample_launched = Some s
       ∧ started_loops (trace s) = loops
       ∧ precedes (EvStartLoop ErrorLoop) (EvStartLoop Workers) (trace s)
       ∧ precedes (EvStartLoop ErrorLoop) (EvStartLoop LogLoop) (trace s)
       ∧ ¬ launched_in_order spec_startup_order (trace s).
Proof.
  eexists. split; [vm_compute; reflexivity|].
  split_and!; [by vm_compute | vm_compute; lia | vm_compute; lia |].
  intros H. vm_compute in H. lia.
Qed.

(** C6, as the code has it: the loops launched so far are an initial part
    of ticker loop (Rate Controller), main loop (Dispatch Loop), error loop
    (Error Escalator), workers (Worker Pool), log loop (Logging Pipeline),
    status loop (Status Reporter), rate loop; and when a loop has been
    launched, the configuration was loaded, the source and the sink were
    opened, the first rate segment was added and every earlier loop of
    that list was launched, in this order, before it. *)
Theorem start_launch_order w s :
  reachable w s →
  started_loops (trace s) `prefix_of` loops
  ∧ ∀ c, EvStartLoop c ∈ trace s →
      ∃ rest,
        trace s = opened ++ EvAddSegment :: map EvStartLoop (loops_before c)
                  ++ EvStartLoop c :: rest.
Proof.
  intros Hreach.
  destruct (reachable_trace_prefix w s Hreach) as [c0 Hpre]. split.
  - apply (prefix_omap (fun e => match e with
                                 | EvStartLoop c => Some c
                                 | _ => None
                                 end)) in Hpre.
    etrans; [exact Hpre|].
    unfold full_trace, before_return, all_defers, result_of.
    destruct (startup_of w); simpl; try apply prefix_nil.
    destruct c0; done.
  - intros c Hin.
    pose proof (prefix_elem_of _ _ _ Hpre Hin) as Hfull.
    unfold full_trace, before_return, all_defers, result_of in *.
    destruct (startup_of w); simpl in Hfull; try absurd_elem Hfull.
    destruct (prefix_cut (trace s)
                (opened ++ EvAddSegment :: map EvStartLoop (loops_before c))
                (map EvStartLoop (drop (S (length (loops_before c))) loops)
                   ++ [EvPrintRatePrompt] ++ shut_down c0
                   ++ map EvDeferred [FlushAndCloseLog; CloseDataFile]
                   ++ [EvReturn None])
                (EvStartLoop c)) as (rest & -> & _); try done.
    + by destruct c.
    + intros H. destruct c; simpl in H; absurd_elem H.
    + exists rest. by rewrite <- app_assoc.
Qed.

(** ** Startup errors *)

Lemma exec_app w ls1 ls2 s :
  exec w (ls1 ++ ls2) s
  = match exec w ls1 s with
    | Some s' => exec w ls2 s'
    | None => None
    end.
Proof.
  revert s. induction ls1 as [|l ls1 IH]; simpl; intros s; [done|].
  destruct (step w l s); [apply IH | done].
Qed.

Lemma reachable_exec w ls s s' :
  reachable w s → exec w ls s = Some s' → reachable w s'.
Proof.
  intros (ctx & cancel & ctx_start & ls0 & Hexec) Hls.
  exists ctx, cancel, ctx_start, (ls0 ++ ls). by rewrite exec_app, Hexec.
Qed.

(** C7: when [loadConfigViper] fails or leaves the data-source location
    empty, [Start] returns an error (the message of line 114 in the second
    case) after loading the configuration and nothing else: the source and
    the sink are not opened and no loop is launched, in any state of any
    run; and the call does return, in at most four steps of its own. *)
Theorem Start_missing_config_fails_early w s :
  reachable w s →
  (loadConfigViper w).2 ≠ None ∨ Data (loadConfigViper w).1 = "" →
  ∃ e, result_of w = Some e
       ∧ ((loadConfigViper w).2 = None → e = no_data_file)
       ∧ trace s `prefix_of` [EvLoadConfigViper; EvReturn (Some e)]
       ∧ (EvOpenDataFile ∉ trace s)
       ∧ (EvOpenLogAndInit ∉ trace s)
       ∧ (∀ c, EvStartLoop c ∉ trace s)
       ∧ (∀ r, at_pc s = PDone r → r = Some e)
       ∧ ∀ ctx cancel ctx_start,
           ∃ n s', (n ≤ 4)%nat
                   ∧ exec w (replicate n Coord) (New ctx cancel ctx_start)
                     = Some s'
                   ∧ at_pc s' = PDone (Some e).
Proof.
  intros Hreach Hbad.
  destruct (reachable_trace_prefix w s Hreach) as [c0 Hpre].
  pose proof (reachable_coord_inv w s Hreach) as Hinv.
  assert (∃ e, result_of w = Some e
               ∧ ((loadConfigViper w).2 = None → e = no_data_file)
               ∧ full_trace w c0 = [EvLoadConfigViper; EvReturn (Some e)]
               ∧ ∀ ctx cancel ctx_start,
                   ∃ n s', (n ≤ 4)%nat
                           ∧ exec w (replicate n Coord)
                               (New ctx cancel ctx_start) = Some s'
                           ∧ at_pc s' = PDone (Some e))
    as (e & Hres & Hmsg & Hfull & Hrun).
  { unfold full_trace, before_return, all_defers, result_of, startup_of.
    destruct ((loadConfigViper w).2) as [e|] eqn:Hload.
    - exists e. split_and!; try done.
      intros ctx cancel ctx_start. exists 3%nat. eexists. split; [lia|].
      simpl. unfold coord_step at 1; simpl. rewrite Hload. simpl. done.
    - destruct Hbad as [?|Hdata]; [done|]. rewrite decide_True by done.
      exists no_data_file. split_and!; try done.
      intros ctx cancel ctx_start. exists 4%nat. eexists. split; [lia|].
      simpl. unfold coord_step at 1; simpl. rewrite Hload. simpl.
      unfold coord_step at 1; simpl. rewrite decide_True by done. done. }
  rewrite Hfull in Hpre. exists e. split_and!; try done.
  - intros H. pose proof (prefix_elem_of _ _ _ Hpre H) as H'. absurd_elem H'.
  - intros H. pose proof (prefix_elem_of _ _ _ Hpre H) as H'. absurd_elem H'.
  - intros c H. pose proof (prefix_elem_of _ _ _ Hpre H) as H'. absurd_elem H'.
  - intros r Hpc. unfold coord_inv in Hinv. rewrite Hpc in Hinv.
    destruct Hinv as [-> _]. done.
Qed.

(** C9: when the configuration is valid and the source and the sink open,
    the value [Start] returns, and the value on its way through the deferred
    calls, is [nil], whatever the fatal-error slot holds. *)
Theorem Start_returns_nil_after_startup w s r :
  reachable w s →
  (loadConfigViper w).2 = None →
  Data (loadConfigViper w).1 ≠ "" →
  (openDataFile w).2 = None →
  openLogAndInit w = None →
  at_pc s = PReturn r ∨ at_pc s = PDone r →
  r = None.
Proof.
  intros Hinv%reachable_coord_inv Hload Hdata Hopen Hlog Hpc.
  assert (result_of w = None) as Hres.
  { unfold result_of, startup_of.
    by rewrite Hload, Hopen, Hlog, decide_False by done. }
  unfold coord_inv in Hinv.
  destruct Hpc as [Hpc|Hpc]; rewrite Hpc in Hinv; destruct Hinv as [-> _]; done.
Qed.

(** ** The final summary *)

(** No statement of [Start] or [start] runs twice. *)
Lemma reachable_trace_NoDup w s : reachable w s → NoDup (trace s).
Proof.
  intros [c [k Hfull]]%reachable_trace_prefix.
  assert (NoDup (full_trace w c)) as Hnd.
  { unfold full_trace, before_return, all_defers, result_of.
    destruct (startup_of w), c; simpl;
      repeat (apply NoDup_cons_2; [intros H; absurd_elem H|]);
      apply NoDup_nil_2. }
  rewrite Hfull in Hnd. by apply NoDup_app in Hnd as [? _].
Qed.

(** C2, counterexample: with a fatal error recorded and no error ignored,
    the summary is an empty line and the fatal error; no line reports the
    count of ignored errors. *)
Lemma summary_counterexample :
  ∃ s s', exec sample_world sample_fatal_labels (New 0 0 0)%nat = Some s
          ∧ at_pc s = PSummary
          ∧ err (blaster s) = Some "boom"
          ∧ errorsIgnored (blaster s) = 0
          ∧ step sample_world Coord s = Some s'
          ∧ out (blaster s')
            = out (blaster s) ++ [Line ""; Line "Fatal error: boom"]
          ∧ Line (ignored_line (errorsIgnored (blaster s))) ∉ out (blaster s').
Proof.
  eexists. eexists. split; [vm_compute; reflexivity|].
  split_and!; try (vm_compute; reflexivity).
  intros H. vm_compute in H. absurd_elem H.
Qed.

(** C2, as the code has it: at the summary the statement always proceeds,
    for the first and only time in the run, and appends to the output
    either the fatal form (an empty line, the count of ignored errors if
    and only if that count is positive, the fatal error; no status) or the
    status form (the final status alone), by whether a fatal error is
    recorded. *)
Theorem final_summary_forms w s :
  reachable w s →
  NoDup (trace s)
  ∧ (at_pc s = PSummary →
     ∃ s', step w Coord s = Some s'
           ∧ (EvSummary ∉ trace s)
           ∧ trace s' = trace s ++ [EvSummary]
           ∧ out (blaster s') = out (blaster s) ++ summary (blaster s)
           ∧ match err (blaster s) with
             | Some e =>
                 let n := errorsIgnored (blaster s) in
                 summary (blaster s)
                 = [Line ""]
                   ++ (if decide (n > 0) then [Line (ignored_line n)] else [])
                   ++ [Line (fatal_line e)]
                 ∧ Status true ∉ summary (blaster s)
             | None => summary (blaster s) = [Status true]
             end).
Proof.
  intros Hreach. split; [by eapply reachable_trace_NoDup|]. intros Hpc.
  pose proof (reachable_coord_inv w s Hreach) as Hinv.
  unfold coord_inv in Hinv. rewrite Hpc in Hinv.
  destruct Hinv as (_ & _ & c & Htr).
  simpl. unfold coord_step. rewrite Hpc. eexists. split; [done|]. simpl.
  split_and!; try done.
  - rewrite Htr. intros H. simpl in H. absurd_elem H.
  - unfold summary. destruct (err (blaster s)); [|done].
    split; [done|]. simpl. case_decide; intros Hin; absurd_elem Hin.
Qed.

(** ** Cancellation *)

Lemma step_cancelled w l s s' :
  step w l s = Some s' →
  ctx_run s' = ctx_run s ∧ cancel (blaster s') = cancel (blaster s)
  ∧ done s ⊆ done s'.
Proof.
  intros Hstep. destruct l; simpl in Hstep.
  - pose proof (coord_step_engine _ _ _ Hstep) as (_ & _ & _ & _ & ? & ?).
    split_and!; try done.
    unfold coord_step in Hstep.
    destruct (at_pc s); repeat case_match; simplify_eq; done.
  - pose proof (select_step_engine _ _ _ Hstep) as (_ & _ & _ & _ & ? & ?).
    split_and!; try done.
    unfold select_step in Hstep. repeat case_match; simplify_eq; done.
  - pose proof (watch_select_engine _ _ _ Hstep) as (_ & _ & _ & _ & ? & ?).
    by apply watch_select_frame in Hstep as (_ & _ & _ & _ & _ & ? & _).
  - pose proof (watch_cancel_engine _ _ Hstep) as (_ & _ & _ & _ & ? & ?).
    by apply watch_cancel_frame in Hstep as (_ & _ & _ & _ & _ & ? & _).
  - pose proof (env_step_frame _ _ _ Hstep) as (_ & _ & _ & _ & _ & ? & _ & ?).
    split_and!; try done.
    destruct a as [| | | | | |wg ?|wg| | |]; simpl in Hstep;
      unfold Exit, Report in *; try destruct wg;
      repeat case_match; simplify_eq; simpl; set_solver.
Qed.

Lemma exec_cancelled w ls s s' :
  exec w ls s = Some s' → ctx_run s ∈ done s → 
  ctx_run s' = ctx_run s ∧ ctx_run s' ∈ done s'.
Proof.
  revert s. induction ls as [|l ls IH]; simpl; intros s Hexec Hin.
  - by simplify_eq.
  - destruct (step w l s) as [s1|] eqn:Hl; [|done].
    apply step_cancelled in Hl as (Hrun & _ & Hsub).
    destruct (IH s1 Hexec) as [-> ?]; [rewrite Hrun; by apply Hsub|]. done.
Qed.

(** The goroutines a wait group counts call [Done] one after the other:
    the counter reaches zero and nothing else changes. *)
Lemma wait_group_drains w wg n s :
  wg_counter wg (blaster s) = n →
  exec w (replicate n (Env (WaitDone wg))) s = Some (upd (wg_set wg 0%nat) s).
Proof.
  revert s. induction n as [|n IH]; intros s Hn; simpl.
  - destruct s as [b ? ? ? ? ? ? ? ?], b, wg; simpl in *; by subst.
  - rewrite Hn. rewrite IH; [|by destruct wg]. by destruct wg.
Qed.

(** Once the [select] has fired, and whatever number of executors and of
    consumer loops is still at work, [start] runs to its [return] as they
    finish: it waits for the executors, closes the workers-finished
    channel, waits for the consumer loops and prints the summary. *)
Lemma shutdown_completes_in_flight w s :
  at_pc s = PSayWaitingWorkers →
  ch_closed (workersFinishedChannel (blaster s)) = false →
  ∃ s', exec w (shutdown_labels_in_flight (workerWait (blaster s))
                  (mainWait (blaster s))) s = Some s'
        ∧ at_pc s' = PReturn None
        ∧ trace s' = trace s ++ [EvWait WorkerWait 0; EvCloseWorkersFinished;
                                 EvWait MainWait 0; EvSummary]
        ∧ ch_closed (workersFinishedChannel (blaster s')) = true
        ∧ workerWait (blaster s') = 0%nat
        ∧ mainWait (blaster s') = 0%nat
        ∧ out (blaster s')
          = out (blaster s) ++ shutdown_lines ++ summary (blaster s).
Proof.
  intros Hpc Hopen. unfold shutdown_labels_in_flight.
  rewrite exec_app. simpl. unfold coord_step at 1. rewrite Hpc.
  rewrite exec_app, wait_group_drains by reflexivity.
  repeat first [ progress simpl | rewrite Hopen | unfold coord_step at 1 ].
  rewrite exec_app, wait_group_drains by reflexivity.
  repeat first [ progress simpl | unfold coord_step at 1 ].
  eexists. split; [done|]. simpl. split_and!; try done.
  - by rewrite <- !app_assoc.
  - unfold summary; simpl. by rewrite <- !app_assoc.
Qed.

Lemma signal_inv_step w l s s' :
  signal_inv s → step w l s = Some s' → signal_inv s'.
Proof.
  unfold signal_inv. intros Hinv Hstep. destruct l; simpl in Hstep.
  - unfold coord_step in Hstep.
    destruct (at_pc s); repeat case_match; simplify_eq; done.
  - unfold select_step in Hstep. repeat case_match; simplify_eq; done.
  - unfold watch_select, chan_receive, chan_recv in Hstep.
    repeat case_match; simplify_eq; done.
  - unfold watch_cancel in Hstep. repeat case_match; simplify_eq; done.
  - destruct a as [| | | | | |wg ?|wg| | |]; simpl in Hstep;
      unfold Exit, Report, chan_try_send in *; try destruct wg;
      repeat case_match; simplify_eq; simpl; try done.
    unfold SetRate. by repeat case_match.
Qed.

Lemma reachable_signal_inv w s : reachable w s → signal_inv s.
Proof.
  intros (ctx & cancel & ctx_start & ls & Hexec).
  eapply exec_invariant; [apply signal_inv_step | | done]. done.
Qed.

Lemma watcher_inv_step w l s s' :
  watcher_inv s → step w l s = Some s' → watcher_inv s'.
Proof.
  unfold watcher_inv. intros Hinv Hstep. destruct l; simpl in Hstep.
  - unfold coord_step in Hstep.
    destruct (at_pc s); repeat case_match; simplify_eq; done.
  - unfold select_step in Hstep. repeat case_match; simplify_eq; done.
  - unfold watch_select in Hstep.
    repeat case_match; simplify_eq; simpl; try done. auto.
  - unfold watch_cancel in Hstep.
    repeat case_match; simplify_eq; simpl. intros _. left. set_solver.
  - destruct a as [| | | | | |wg ?|wg| | |]; simpl in Hstep;
      unfold Exit, Report in *; try destruct wg;
      repeat case_match; simplify_eq; simpl; try done.
    all: try (intros [?|?]%Hinv; [left|right]; by apply elem_of_union_r).
    unfold SetRate. by repeat case_match.
Qed.

Lemma reachable_watcher_inv w s : reachable w s → watcher_inv s.
Proof.
  intros (ctx & cancel & ctx_start & ls & Hexec).
  eapply exec_invariant; [apply watcher_inv_step | | done]. done.
Qed.

(** The operating system's interrupt reaches the goroutine of [New], which
    calls [b.cancel], if it has not ended on a cancellation before. *)
Lemma interrupt_cancels w s :
  signal_inv s → watcher_inv s → notifying s = true →
  cancel (blaster s) = ctx_new s →
  ∃ s', exec w (Env OsInterrupt :: watcher_labels (watcher s)) s = Some s'
        ∧ ctx_run s' = ctx_run s
        ∧ cancel (blaster s) ∈ done s'.
Proof.
  unfold signal_inv, watcher_inv. intros Hcap Hexit Hnotify Hnew.
  simpl. rewrite Hnotify. unfold chan_try_send. rewrite Hcap.
  destruct (watcher s) eqn:Hwatch; simpl.
  - destruct (ch_buf (signalChannel (blaster s))) as [|x buf] eqn:Hbuf; simpl.
    + unfold watch_select; simpl. rewrite Hwatch.
      eexists. split; [done|]. simpl. split; [done | set_solver].
    + unfold watch_select; simpl. rewrite Hwatch.
      unfold chan_receive, chan_recv; simpl. rewrite Hbuf; simpl.
      eexists. split; [done|]. simpl. split; [done | set_solver].
  - case_decide; unfold watch_cancel; simpl; rewrite Hwatch;
      (eexists; split; [done|]; simpl; split; [done | set_solver]).
  - destruct (Hexit eq_refl) as [?|?];
      case_decide; (eexists; split; [done|]; simpl; split; [done|]);
      congruence.
Qed.

(** C4: in a run whose context is the one [New] was given, with its
    [CancelFunc], and as long as [Exit] has not been called, an interrupt
    makes the goroutine of [New] call [b.cancel] unless a cancellation has
    ended that goroutine before, and the context is done from then on, in
    every later state of every continuation of the run.  In each of these
    states: a summary in the trace has the [select], the wait on the
    executors, the close and the wait on the consumer loops before it, and
    the workers-finished channel is closed; the two waits let [start]
    proceed exactly when their counter is zero; and at the [select],
    whatever number of executors and of consumer loops is still at work,
    the cancellation case can be taken and leads to the statement the
    data-finished case leads to, and as the executors and then the loops
    finish [start] waits for the executors, closes the workers-finished
    channel, waits for the loops, prints the four progress lines and the
    summary (never empty: the fatal error if one is recorded, the final
    status otherwise) and reaches its [return]; after the data-finished
    case the same steps give the same output. *)
Theorem interrupt_graceful_shutdown w s :
  reachable w s →
  cancel (blaster s) = ctx_run s →
  ctx_new s = ctx_run s →
  notifying s = true →
  ∃ s1,
    exec w (Env OsInterrupt :: watcher_labels (watcher s)) s = Some s1
    ∧ ctx_run s1 ∈ done s1
    ∧ ∀ ls s2, exec w ls s1 = Some s2 →
        ctx_run s2 ∈ done s2
        ∧ (EvSummary ∈ trace s2 →
           ch_closed (workersFinishedChannel (blaster s2)) = true
           ∧ ∃ c rest, trace s2 = opened ++ launched ++ shut_down c ++ rest)
        ∧ (at_pc s2 = PWorkerWait →
           (is_Some (step w Coord s2) ↔ workerWait (blaster s2) = 0%nat))
        ∧ (at_pc s2 = PMainWait →
           (is_Some (step w Coord s2) ↔ mainWait (blaster s2) = 0%nat))
        ∧ (at_pc s2 = PSelect →
           ∃ s3 s4,
             step w (CoordSelect CtxDone) s2 = Some s3
             ∧ at_pc s3 = PSayWaitingWorkers
             ∧ exec w (shutdown_labels_in_flight (workerWait (blaster s2))
                         (mainWait (blaster s2))) s3 = Some s4
             ∧ at_pc s4 = PReturn None
             ∧ trace s4 = opened ++ launched ++ shut_down CtxDone
             ∧ ch_closed (workersFinishedChannel (blaster s4)) = true
             ∧ workerWait (blaster s4) = 0%nat
             ∧ mainWait (blaster s4) = 0%nat
             ∧ out (blaster s4)
               = out (blaster s2) ++ shutdown_lines ++ summary (blaster s2)
             ∧ summary (blaster s2) ≠ []
             ∧ match err (blaster s2) with
               | Some e => Line (fatal_line e) ∈ summary (blaster s2)
               | None => summary (blaster s2) = [Status true]
               end
             ∧ ∀ s3', step w (CoordSelect DataFinished) s2 = Some s3' →
                 at_pc s3' = PSayWaitingWorkers
                 ∧ ∃ s4',
                     exec w (shutdown_labels_in_flight
                               (workerWait (blaster s2))
                               (mainWait (blaster s2))) s3' = Some s4'
                     ∧ at_pc s4' = PReturn None
                     ∧ trace s4' = opened ++ launched ++ shut_down DataFinished
                     ∧ out (blaster s4') = out (blaster s4)).
Proof.
  intros Hreach Hcancel Hnew Hnotify.
  destruct (interrupt_cancels w s (reachable_signal_inv w s Hreach)
              (reachable_watcher_inv w s Hreach) Hnotify)
    as (s1 & Hexec1 & Hrun1 & Hdone1); [congruence|].
  exists s1. rewrite Hcancel, <- Hrun1 in Hdone1. split_and!; try done.
  intros ls s2 Hexec2.
  destruct (exec_cancelled w ls s1 s2 Hexec2 Hdone1) as [_ Hdone2].
  assert (reachable w s2) as Hreach2 by eauto using reachable_exec.
  pose proof (reachable_coord_inv w s2 Hreach2) as Hinv.
  pose proof (reachable_closed_inv w s2 Hreach2) as Hclosed.
  split_and!; try done.
  - intros Hin. split; [by apply (summary_after_close w)|].
    destruct (summary_after_shutdown w s2 Hreach2 Hin) as (c & rest & -> & _).
    by exists c, rest.
  - intros Hpc. simpl. unfold coord_step. rewrite Hpc. simpl.
    case_decide as Hn; split; intros Hx; try done; by destruct Hx.
  - intros Hpc. simpl. unfold coord_step. rewrite Hpc. simpl.
    case_decide as Hn; split; intros Hx; try done; by destruct Hx.
  - intros Hpc. unfold coord_inv in Hinv. rewrite Hpc in Hinv.
    destruct Hinv as (_ & _ & c & Htr). simpl in Htr.
    assert (ch_closed (workersFinishedChannel (blaster s2)) = false) as Hopen.
    { destruct (ch_closed _) eqn:Hc; [|done].
      apply Hclosed in Hc. rewrite Htr in Hc. absurd_elem Hc. }
    simpl. unfold select_step. rewrite Hpc, decide_True by done.
    edestruct (shutdown_completes_in_flight w
                 (goto PSayWaitingWorkers (emit (EvSelect CtxDone) s2)))
      as (s4 & Hexec4 & Hpc4 & Htr4 & Hclosed4 & Hworkers4 & Hmain4 & Hout4);
      [done | done |].
    eexists _, s4. split_and!; try done.
    + rewrite Htr4. simpl. by rewrite Htr.
    + apply summary_nonempty.
    + unfold summary. destruct (err (blaster s2)); [|done].
      rewrite !elem_of_app. right. right. by apply list_elem_of_singleton.
    + intros s3' Hstep. 
      destruct (chan_receive (dataFinishedChannel (blaster s2)))
        as [[x c']|] eqn:Hrecv; [|done].
      simplify_eq. split; [done|].
      edestruct (shutdown_completes_in_flight w
                   (goto PSayWaitingWorkers
                      (emit (EvSelect DataFinished)
                         (upd (set_dataFinishedChannel c') s2))))
        as (s4' & Hexec4' & Hpc4' & Htr4' & _ & _ & _ & Hout4');
        [done | done |].
      exists s4'. split_and!; try done.
      * rewrite Htr4'. simpl. by rewrite Htr.
      * by rewrite Hout4', Hout4.
Qed.

(** * The properties on sample runs *)

(** The states of the sample runs are reachable. *)
Lemma sample_reachable w ls s :
  exec w ls (New 0 0 0)%nat = Some s → reachable w s.
Proof. intros H. by exists 0%nat, 0%nat, 0%nat, ls. Qed.

(** C1 on the whole sample run, in which an executor is still at work when
    the [select] fires: the summary is in the trace, the workers-finished
    channel is closed, and the [select], the wait on the executors, the
    close and the wait on the consumer loops have come before the
    summary. *)
Lemma start_shutdown_order_witness :
  ∃ s, exec sample_world sample_labels (New 0 0 0)%nat = Some s
       ∧ EvSummary ∈ trace s
       ∧ ch_closed (workersFinishedChannel (blaster s)) = true
       ∧ ∃ c rest,
           trace s = opened ++ launched
                     ++ [EvSelect c; EvWait WorkerWait 0;
                         EvCloseWorkersFinished; EvWait MainWait 0; EvSummary]
                     ++ rest
           ∧ (EvSummary ∉ rest).
Proof.
  eexists. split; [vm_compute; reflexivity|].
  match goal with |- ?P ∧ _ => assert P as Hin end.
  { apply (bool_decide_unpack _). vm_compute. exact I. }
  split; [exact Hin|].
  refine (proj1 (proj2 (proj2 (start_shutdown_order sample_world _ _))) Hin).
  apply (sample_reachable _ sample_labels). vm_compute. reflexivity.
Defined.

(** C2 on the sample run with one failure: the statement at the summary
    proceeds and appends the summary to the output. *)
Lemma final_summary_forms_witness :
  ∃ s s', exec sample_world sample_fatal_labels (New 0 0 0)%nat = Some s
          ∧ at_pc s = PSummary
          ∧ step sample_world Coord s = Some s'
          ∧ out (blaster s') = out (blaster s) ++ summary (blaster s).
Proof.
  eexists.
  match goal with
  | |- ∃ s', ?E = Some ?s ∧ _ =>
      assert (E = Some s) as Hexec by (vm_compute; reflexivity)
  end.
  edestruct (final_summary_forms sample_world) as [_ Hsum];
    [exact (sample_reachable _ _ _ Hexec)|].
  destruct Hsum as (s' & Hstep & _ & _ & Hout & _); [vm_compute; reflexivity|].
  exists s'. split_and!; [exact Hexec | vm_compute; reflexivity | exact Hstep
                         | exact Hout].
Defined.

(** C3 on the whole sample run: one error was ignored, and the fatal error
    is recorded. *)
Lemma errorsIgnored_only_after_fatal_witness :
  ∃ s, exec sample_world sample_labels (New 0 0 0)%nat = Some s
       ∧ errorsIgnored (blaster s) = 1
       ∧ err (blaster s) ≠ None.
Proof.
  eexists.
  match goal with
  | |- ?E = Some ?s ∧ _ =>
      assert (E = Some s) as Hexec by (vm_compute; reflexivity)
  end.
  split; [exact Hexec|]. split; [vm_compute; reflexivity|].
  refine (proj1 (errorsIgnored_only_after_fatal sample_world _
                   (sample_reachable _ _ _ Hexec)) _).
  vm_compute. reflexivity.
Defined.

(** C4 on the sample run in mid-flight, two executors and two consumer
    loops at work: the interrupt is relayed and received, the context is
    done, the [select] fires on it, and as the executors and the loops
    finish [start] reaches its [return] with both counters at zero, the
    workers-finished channel closed, and the progress lines and the final
    status printed. *)
Lemma interrupt_graceful_shutdown_witness :
  ∃ s s1 s3 s4,
    exec sample_world sample_in_flight_labels (New 0 0 0)%nat = Some s
    ∧ workerWait (blaster s) = 2%nat
    ∧ mainWait (blaster s) = 2%nat
    ∧ exec sample_world
        [Env OsInterrupt; WatchSelect SignalReceived; WatchCancel] s
      = Some s1
    ∧ ctx_run s1 ∈ done s1
    ∧ step sample_world (CoordSelect CtxDone) s1 = Some s3
    ∧ exec sample_world (shutdown_labels_in_flight 2 2) s3 = Some s4
    ∧ at_pc s4 = PReturn None
    ∧ workerWait (blaster s4) = 0%nat
    ∧ mainWait (blaster s4) = 0%nat
    ∧ ch_closed (workersFinishedChannel (blaster s4)) = true
    ∧ out (blaster s4)
      = [RatePrompt; Status false] ++ shutdown_lines ++ [Status true].
Proof.
  eexists.
  match goal with
  | |- ∃ s1 s3 s4, ?E = Some ?s ∧ _ =>
      assert (E = Some s) as Hexec by (vm_compute; reflexivity)
  end.
  edestruct (interrupt_graceful_shutdown sample_world)
    as (s1 & Hexec1 & Hdone & Hlater);
    [ exact (sample_reachable _ _ _ Hexec)
    | vm_compute; reflexivity | vm_compute; reflexivity
    | vm_compute; reflexivity | ].
  destruct (Hlater [] s1 eq_refl) as (_ & _ & _ & _ & Hselect).
  assert (at_pc s1 = PSelect) as Hpc.
  { vm_compute in Hexec1. injection Hexec1 as <-. reflexivity. }
  destruct (Hselect Hpc)
    as (s3 & s4 & Hstep3 & _ & Hexec4 & Hpc4 & _ & Hclosed4 & Hworkers4
        & Hmain4 & Hout4 & _).
  assert (workerWait (blaster s1) = 2%nat) as Hworkers1.
  { vm_compute in Hexec1. injection Hexec1 as <-. reflexivity. }
  assert (mainWait (blaster s1) = 2%nat) as Hmain1.
  { vm_compute in Hexec1. injection Hexec1 as <-. reflexivity. }
  assert (out (blaster s1) ++ shutdown_lines ++ summary (blaster s1)
          = [RatePrompt; Status false] ++ shutdown_lines ++ [Status true])
    as Hout1.
  { vm_compute in Hexec1. injection Hexec1 as <-. reflexivity. }
  rewrite Hworkers1, Hmain1 in Hexec4. rewrite Hout1 in Hout4.
  exists s1, s3, s4.
  split_and!; [ exact Hexec | vm_compute; reflexivity | vm_compute; reflexivity
              | exact Hexec1 | exact Hdone | exact Hstep3 | exact Hexec4
              | exact Hpc4 | exact Hworkers4 | exact Hmain4 | exact Hclosed4
              | exact Hout4 ].
Defined.

(** C5 on a fresh engine: of the requests 1, 2, 3 the slot holds 3. *)
Lemma SetRate_latest_wins_witness :
  ch_buf (changeRateChannel
            (SetRates ([1%float; 2%float] ++ [3%float])
               (blaster (New 0 0 0)%nat)))
  = [3%float].
Proof.
  exact (proj2 (proj2 (SetRate_latest_wins sample_world (New 0 0 0)%nat
                         [1%float; 2%float] 3%float
                         (sample_reachable _ [] _ eq_refl)))).
Defined.

(** C6 on the whole sample run. *)
Lemma start_launch_order_witness :
  ∃ s, exec sample_world sample_labels (New 0 0 0)%nat = Some s
       ∧ started_loops (trace s) `prefix_of` loops.
Proof.
  eexists.
  match goal with
  | |- ?E = Some ?s ∧ _ =>
      assert (E = Some s) as Hexec by (vm_compute; reflexivity)
  end.
  split; [exact Hexec|].
  exact (proj1 (start_launch_order sample_world _
                  (sample_reachable _ _ _ Hexec))).
Defined.

(** C7 with an empty data-source location: four steps, the error of
    line 114, and a trace of the load and the return. *)
Lemma Start_missing_config_fails_early_witness :
  ∃ s e, exec no_data_world (replicate 4 Coord) (New 0 0 0)%nat = Some s
         ∧ at_pc s = PDone (Some e)
         ∧ result_of no_data_world = Some e
         ∧ e = no_data_file
         ∧ trace s `prefix_of` [EvLoadConfigViper; EvReturn (Some e)].
Proof.
  eexists.
  match goal with
  | |- ∃ e, ?E = Some ?s ∧ _ =>
      assert (E = Some s) as Hexec by (vm_compute; reflexivity)
  end.
  edestruct (Start_missing_config_fails_early no_data_world)
    as (e & Hres & Hmsg & Hpre & _ & _ & _ & Hdone & _);
    [ exact (sample_reachable _ _ _ Hexec) | right; reflexivity | ].
  exists e. split_and!; [exact Hexec | | exact Hres | exact (Hmsg eq_refl)
                        | exact Hpre].
  rewrite (Hmsg eq_refl). vm_compute. reflexivity.
Defined.

(** C9 on the whole sample run: the fatal error is recorded and [Start]
    returns [nil]. *)
Lemma Start_returns_nil_after_startup_witness :
  ∃ s r, exec sample_world sample_labels (New 0 0 0)%nat = Some s
         ∧ err (blaster s) = Some "boom"
         ∧ at_pc s = PDone r
         ∧ r = None.
Proof.
  eexists. eexists.
  match goal with
  | |- ?E = Some ?s ∧ _ =>
      assert (E = Some s) as Hexec by (vm_compute; reflexivity)
  end.
  split; [exact Hexec|]. split; [vm_compute; reflexivity|].
  match goal with |- ?P ∧ _ => assert P as Hpc by (vm_compute; reflexivity) end.
  split; [exact Hpc|].
  refine (Start_returns_nil_after_startup sample_world _ _
            (sample_reachable _ _ _ Hexec) eq_refl _ eq_refl eq_refl
            (or_intror Hpc)).
  discriminate.
Defined.

(** * More properties of [blaster.go] *)

(** ** The return paths of [Start] *)

(** Membership in a short explicit list of events. *)
Ltac elem_cases :=
  rewrite ?elem_of_cons, ?elem_of_nil; intuition (discriminate || congruence).

(** X1: when [Start] has returned, [closeDataFile] has run exactly if the
    source was opened without error, and [flushAndCloseLog] exactly if the
    sink was; the log is flushed after the summary and before the data file
    is closed; and every deferred call has run before the return. *)
Theorem Start_deferred_cleanup w s r :
  reachable w s →
  at_pc s = PDone r →
  (EvDeferred CloseDataFile ∈ trace s
     ↔ EvOpenDataFile ∈ trace s ∧ (openDataFile w).2 = None)
  ∧ (EvDeferred FlushAndCloseLog ∈ trace s
     ↔ EvOpenLogAndInit ∈ trace s ∧ openLogAndInit w = None)
  ∧ (EvDeferred FlushAndCloseLog ∈ trace s →
     precedes EvSummary (EvDeferred FlushAndCloseLog) (trace s)
     ∧ precedes (EvDeferred FlushAndCloseLog) (EvDeferred CloseDataFile)
         (trace s))
  ∧ (∀ d, EvDeferred d ∈ trace s →
       precedes (EvDeferred d) (EvReturn r) (trace s)).
Proof.
  intros Hreach Hpc.
  pose proof (reachable_coord_inv w s Hreach) as Hinv.
  unfold coord_inv in Hinv. rewrite Hpc in Hinv.
  destruct Hinv as (-> & c & Htr). rewrite Htr.
  unfold full_trace, before_return, all_defers, result_of, startup_of.
  destruct ((loadConfigViper w).2) eqn:Hload;
    [|case_decide; [|destruct ((openDataFile w).2) eqn:Hopen;
                      [|destruct (openLogAndInit w) eqn:Hlog]]]; simpl.
  all: split_and!;
    lazymatch goal with
    | |- _ ↔ _ => elem_cases
    | |- ∀ d : deferred, _ => intros [] Hin
    | |- _ → _ => intros Hin
    end.
  all: first
    [ exfalso; absurd_elem Hin
    | unfold precedes; simpl; destruct c; simpl;
      rewrite ?decide_True by done; simpl; try split; lia ].
Qed.

(** X2: when the source or the sink cannot be opened, no loop is launched,
    no rate segment is added, no summary is printed and the log is never
    flushed; if it is the source, the sink is not opened and nothing is
    closed; and [Start] returns that error, after closing the data file if
    it was the sink that failed. *)
Theorem Start_open_failure_aborts w s e :
  reachable w s →
  (loadConfigViper w).2 = None →
  Data (loadConfigViper w).1 ≠ "" →
  (openDataFile w).2 = Some e
  ∨ (openDataFile w).2 = None ∧ openLogAndInit w = Some e →
  (∀ c, EvStartLoop c ∉ trace s)
  ∧ (EvAddSegment ∉ trace s)
  ∧ (EvSummary ∉ trace s)
  ∧ (EvDeferred FlushAndCloseLog ∉ trace s)
  ∧ ((openDataFile w).2 = Some e →
       (EvOpenLogAndInit ∉ trace s) ∧ (EvDeferred CloseDataFile ∉ trace s))
  ∧ (∀ r, at_pc s = PDone r →
       r = Some e
       ∧ ((openDataFile w).2 = None →
            precedes EvOpenLogAndInit (EvDeferred CloseDataFile) (trace s)
            ∧ precedes (EvDeferred CloseDataFile) (EvReturn r) (trace s))).
Proof.
  intros Hreach Hload Hdata Hfail.
  destruct (reachable_trace_prefix w s Hreach) as [c Hpre].
  pose proof (reachable_coord_inv w s Hreach) as Hinv.
  assert (result_of w = Some e
          ∧ full_trace w c
            = match (openDataFile w).2 with
              | Some _ => [EvLoadConfigViper; EvOpenDataFile; EvReturn (Some e)]
              | None => opened ++ [EvDeferred CloseDataFile; EvReturn (Some e)]
              end) as [Hres Hfull].
  { unfold full_trace, before_return, all_defers, result_of, startup_of.
    rewrite Hload, decide_False by done.
    destruct Hfail as [->|[-> ->]]; done. }
  rewrite Hfull in Hpre.
  assert (∀ x, x ∈ trace s →
            x ∈ [EvLoadConfigViper; EvOpenDataFile; EvOpenLogAndInit;
                 EvDeferred CloseDataFile; EvReturn (Some e)]
            ∧ ((openDataFile w).2 = Some e →
               x ∈ [EvLoadConfigViper; EvOpenDataFile; EvReturn (Some e)]))
    as Hsub.
  { intros x Hx. pose proof (prefix_elem_of _ _ _ Hpre Hx) as Hx'.
    destruct ((openDataFile w).2); simpl in Hx'; split; try done;
      revert Hx'; elem_cases. }
  split_and!.
  - intros c0 [H _]%Hsub. absurd_elem H.
  - intros [H _]%Hsub. absurd_elem H.
  - intros [H _]%Hsub. absurd_elem H.
  - intros [H _]%Hsub. absurd_elem H.
  - intros Hopen. split; intros [_ H]%Hsub; specialize (H Hopen); absurd_elem H.
  - intros r Hpc. unfold coord_inv in Hinv. rewrite Hpc in Hinv.
    destruct Hinv as (-> & c' & Htr). split; [done|]. intros Hopen.
    rewrite Htr. unfold full_trace, before_return, all_defers, result_of,
      startup_of.
    rewrite Hload, decide_False, Hopen by done.
    destruct Hfail as [?|[_ ->]]; [congruence|].
    unfold precedes; simpl. rewrite ?decide_True by done. simpl. lia.
Qed.

(** ** Where [Start] can block *)


(** ** [Exit] *)

(** Once [signal.Stop] has run, nothing is relayed to the signal channel. *)
Lemma step_after_Stop w l s s' :
  notifying s = false → step w l s = Some s' →
  notifying s' = false
  ∧ (length (ch_buf (signalChannel (blaster s')))
     ≤ length (ch_buf (signalChannel (blaster s))))%nat.
Proof.
  intros Hstop Hstep. destruct l; simpl in Hstep.
  - unfold coord_step in Hstep.
    destruct (at_pc s); repeat case_match; simplify_eq; done.
  - unfold select_step in Hstep. repeat case_match; simplify_eq; done.
  - unfold watch_select, chan_receive, chan_recv in Hstep.
    repeat case_match; simplify_eq; simpl; split; try done;
      try (simpl; lia);
      try (match goal with H : ch_buf _ = _ |- _ => rewrite H end; simpl; lia).
  - unfold watch_cancel in Hstep. repeat case_match; simplify_eq; done.
  - destruct a as [| | | | | |wg ?|wg| | |]; simpl in Hstep;
      unfold Exit, Report in *; try destruct wg;
      repeat case_match; simplify_eq; simpl; try done.
    unfold SetRate. by repeat case_match.
Qed.

Lemma exec_after_Stop w ls s s' :
  notifying s = false → exec w ls s = Some s' →
  notifying s' = false
  ∧ (length (ch_buf (signalChannel (blaster s')))
     ≤ length (ch_buf (signalChannel (blaster s))))%nat.
Proof.
  revert s. induction ls as [|l ls IH]; simpl; intros s Hstop Hexec.
  - by simplify_eq.
  - destruct (step w l s) as [s1|] eqn:Hl; [|done].
    destruct (step_after_Stop _ _ _ _ Hstop Hl) as [Hstop1 Hlen1].
    destruct (IH s1 Hstop1 Hexec) as [? ?]. split; [done | lia].
Qed.

(** X4: [Exit] can always be called and leaves the engine's fields alone;
    when [b.cancel] is the [CancelFunc] of the context [Start] runs in, that
    context is done in every later state, no signal is relayed any more,
    and a [Start] waiting at its [select] can go on to shut down. *)
Theorem Exit_cancels_run w s :
  reachable w s →
  cancel (blaster s) = ctx_run s →
  ∃ s1, step w (Env CallExit) s = Some s1
        ∧ blaster s1 = blaster s
        ∧ ∀ ls s2, exec w ls s1 = Some s2 →
            ctx_run s2 ∈ done s2
            ∧ notifying s2 = false
            ∧ (length (ch_buf (signalChannel (blaster s2)))
               ≤ length (ch_buf (signalChannel (blaster s))))%nat
            ∧ (at_pc s2 = PSelect →
               is_Some (step w (CoordSelect CtxDone) s2)).
Proof.
  intros Hreach Hcancel. eexists. split; [done|]. split; [done|].
  intros ls s2 Hexec.
  assert (ctx_run (Exit s) ∈ done (Exit s)) as Hdone.
  { simpl. rewrite Hcancel. set_solver. }
  destruct (exec_cancelled w ls (Exit s) s2 Hexec Hdone) as [_ Hdone2].
  destruct (exec_after_Stop w ls (Exit s) s2 eq_refl Hexec) as [Hstop Hlen].
  split_and!; try done.
  intros Hpc. simpl. unfold select_step. rewrite Hpc, decide_True by done.
  done.
Qed.

(** ** The goroutine of [New] *)

Lemma step_no_signal w l s s' :
  no_signal s → step w l s = Some s' → l ≠ Env OsInterrupt →
  no_signal s' ∧ (l ≠ WatchCancel)
  ∧ (l = Coord ∨ (∃ c, l = CoordSelect c) ∨ (∃ c, l = WatchSelect c) →
     done s' = done s).
Proof.
  unfold no_signal. intros (Hw & Hbuf & Hopen) Hstep Hl.
  destruct l; simpl in Hstep.
  - unfold coord_step in Hstep.
    destruct (at_pc s); repeat case_match; simplify_eq; done.
  - unfold select_step in Hstep. repeat case_match; simplify_eq; done.
  - unfold watch_select, chan_receive, chan_recv in Hstep.
    rewrite Hbuf, Hopen in Hstep. repeat case_match; simplify_eq; done.
  - unfold watch_cancel in Hstep. by repeat case_match.
  - destruct a as [| | | | | |wg ?|wg| | |]; simpl in Hstep;
      unfold Exit, Report in *; try destruct wg;
      repeat case_match; simplify_eq; simpl;
      split_and!; try done; try (by intros [?|[[? ?]|[? ?]]]).
    all: unfold SetRate; by repeat case_match.
Qed.

Lemma exec_no_signal w ls s s' :
  no_signal s → exec w ls s = Some s' → Env OsInterrupt ∉ ls →
  no_signal s' ∧ (WatchCancel ∉ ls) ∧ ((∀ a, Env a ∉ ls) → done s' = done s).
Proof.
  revert s. induction ls as [|l ls IH]; simpl; intros s Hinit Hexec Hnone.
  - simplify_eq. split_and!; try done. by intros ?%elem_of_nil.
  - destruct (step w l s) as [s1|] eqn:Hl; [|done].
    apply not_elem_of_cons in Hnone as [Hne Hnone].
    destruct (step_no_signal w l s s1 Hinit Hl) as (Hinit1 & Hl1 & Hd1);
      [congruence|].
    destruct (IH s1 Hinit1 Hexec Hnone) as (Hfinal & Hcancel & Hdone).
    split_and!; try done.
    + apply not_elem_of_cons. split; [congruence | done].
    + intros Henv.
      assert (∀ a, Env a ∉ ls) as Henv'.
      { intros a Ha. apply (Henv a). apply elem_of_cons. by right. }
      rewrite (Hdone Henv'). apply Hd1.
      destruct l as [|c|c| |a]; eauto; [done|].
      exfalso. apply (Henv a). apply elem_of_cons. by left.
Qed.

(** X5: in a run without an interrupt the goroutine of [New] never reaches
    its call of [b.cancel] and the signal channel stays empty; and in a run
    of the two goroutines of [blaster.go] alone no context is ever
    cancelled. *)
Theorem watcher_cancels_only_on_interrupt w ctx cancel ctx_start ls s :
  exec w ls (New ctx cancel ctx_start) = Some s →
  Env OsInterrupt ∉ ls →
  watcher s ≠ WCancel
  ∧ ch_buf (signalChannel (blaster s)) = []
  ∧ (WatchCancel ∉ ls)
  ∧ ((∀ a, Env a ∉ ls) → done s = ∅).
Proof.
  intros Hexec Hnone.
  assert (no_signal (New ctx cancel ctx_start)) as Hinit by done.
  destruct (exec_no_signal w ls _ s Hinit Hexec Hnone)
    as ((? & ? & _) & ? & Hdone).
  done.
Qed.

Lemma signal_slot_inv_step w l s s' :
  signal_slot_inv s → step w l s = Some s' → signal_slot_inv s'.
Proof.
  unfold signal_slot_inv. intros [Hcap Hlen] Hstep. destruct l; simpl in Hstep.
  - unfold coord_step in Hstep.
    destruct (at_pc s); repeat case_match; simplify_eq; done.
  - unfold select_step in Hstep. repeat case_match; simplify_eq; done.
  - unfold watch_select, chan_receive, chan_recv in Hstep.
    repeat case_match; simplify_eq; simpl; split; try done;
      repeat match goal with
             | H : ch_buf _ = _ |- _ => rewrite ?H in *; clear H
             end;
      simpl in *; lia.
  - unfold watch_cancel in Hstep. repeat case_match; simplify_eq; done.
  - destruct a as [| | | | | |wg ?|wg| | |]; simpl in Hstep;
      unfold Exit, Report, chan_try_send in *; try destruct wg;
      repeat case_match; simplify_eq; simpl; try done.
    + split; [done|]. rewrite length_app. simpl. lia.
    + unfold SetRate. by repeat case_match.
Qed.

Lemma reachable_signal_slot_inv w s : reachable w s → signal_slot_inv s.
Proof.
  intros (ctx & cancel & ctx_start & ls & Hexec).
  eapply exec_invariant; [apply signal_slot_inv_step | | done].
  unfold signal_slot_inv; simpl. lia.
Qed.

(** X6: the signal channel never holds more than one signal; while
    [signal.Notify] is in force an interrupt is always relayed without
    blocking and leaves exactly one signal pending, which the goroutine of
    [New], if it still listens, can receive. *)
Theorem interrupt_never_lost w s :
  reachable w s →
  (length (ch_buf (signalChannel (blaster s))) ≤ 1)%nat
  ∧ (notifying s = true →
     ∃ s', step w (Env OsInterrupt) s = Some s'
           ∧ ch_buf (signalChannel (blaster s')) = [Interrupt]
           ∧ (watcher s' = WSelect →
              ∃ s'', step w (WatchSelect SignalReceived) s' = Some s''
                     ∧ watcher s'' = WCancel
                     ∧ ch_buf (signalChannel (blaster s'')) = [])).
Proof.
  intros [Hcap Hlen]%reachable_signal_slot_inv. split; [done|].
  intros Hnotify. simpl. rewrite Hnotify. unfold chan_try_send. rewrite Hcap.
  destruct (ch_buf (signalChannel (blaster s))) as [|[] [|? ?]] eqn:Hbuf;
    simpl in *; [| |lia].
  - eexists. split; [done|]. simpl. split; [done|].
    intros Hw. unfold watch_select; simpl. rewrite Hw. simpl. eauto.
  - eexists. split; [done|]. split; [done|].
    intros Hw. unfold watch_select, chan_receive, chan_recv; simpl.
    rewrite Hw, Hbuf. simpl. eauto.
Qed.

(** ** Lists of registrations *)

(** X7: after a list of registrations the registry holds, for each key, the
    factory registered last under it, and what it held before for the keys
    not in the list; registrations under distinct keys can be made in any
    order. *)
Theorem RegisterWorkerTypes_last_wins regs b :
  workerTypes (RegisterWorkerTypes regs b)
  = list_to_map (reverse regs) ∪ workerTypes b
  ∧ (∀ key, key ∉ regs.*1 →
       workerTypes (RegisterWorkerTypes regs b) !! key = workerTypes b !! key)
  ∧ (∀ regs', regs' ≡ₚ regs → NoDup regs.*1 →
       RegisterWorkerTypes regs' b = RegisterWorkerTypes regs b).
Proof.
  assert (∀ regs b,
            RegisterWorkerTypes regs b
            = set_workerTypes (list_to_map (reverse regs) ∪ workerTypes b) b)
    as Hall.
  { clear. intros regs. induction regs as [|[k f] regs IH] using rev_ind;
      intros b.
    - simpl. rewrite (left_id_L ∅ (∪)). by destruct b.
    - unfold RegisterWorkerTypes in *. rewrite foldl_app, IH. simpl.
      rewrite reverse_app. simpl. unfold RegisterWorkerType. simpl.
      by rewrite insert_union_l. }
  split_and!.
  - by rewrite Hall.
  - intros key Hkey. rewrite Hall. simpl.
    rewrite lookup_union_r; [done|].
    apply not_elem_of_list_to_map_1. by rewrite fmap_reverse, elem_of_reverse.
  - intros regs' Hperm Hnd. rewrite !Hall. f_equal. f_equal.
    apply list_to_map_proper.
    + by rewrite fmap_reverse, reverse_Permutation, Hperm.
    + by rewrite !reverse_Permutation.
Qed.

(** ** [ThreadSafeWriter] *)

Module WriterProofs.
Import Writer.

Lemma lookup_move_eq i c pc s :
  calls s !! i = Some c → move i c pc s !! i = Some (Call (p c) pc).
Proof.
  intros Hi. unfold move. apply list_lookup_insert_eq.
  by apply lookup_lt_Some in Hi.
Qed.

Lemma lookup_move_ne i j c pc s :
  i ≠ j → move i c pc s !! j = calls s !! j.
Proof. intros Hne. unfold move. by apply list_lookup_insert_ne. Qed.

(** A step of call [i] leaves what the other calls have handed over. *)
Lemma received_move_ne i c pc s wt (js : list nat) :
  i ∉ js →
  received {| t := wt; calls := move i c pc s |} <$> js = received s <$> js.
Proof.
  intros Hi. apply list_fmap_ext. intros k j Hj.
  unfold received; simpl. rewrite lookup_move_ne; [done|].
  intros ->. apply Hi. by eapply list_elem_of_lookup_2.
Qed.

Lemma received_move_eq i c pc s wt :
  calls s !! i = Some c →
  received {| t := wt; calls := move i c pc s |} i
  = take (progress (Call (p c) pc)) (p c).
Proof.
  intros Hi. unfold received; simpl. by rewrite (lookup_move_eq _ _ _ _ Hi).
Qed.

(** A call that has passed [Lock] and not returned is the holder. *)
Lemma holder_is w0 s finished holder i c :
  serialized w0 s finished holder →
  calls s !! i = Some c → holding c = true → holder = Some i.
Proof.
  intros (Hnd & Hfin & Hhold & Hcover & _) Hi Hc.
  assert (at_pc c ≠ AtLock) as Hne.
  { intros Heq. unfold holding in Hc. by rewrite Heq in Hc. }
  specialize (Hcover i c Hi Hne).
  apply elem_of_app in Hcover as [Hin|Hin].
  - rewrite Forall_forall in Hfin. destruct (Hfin i Hin) as (c' & Hi' & Hret).
    simplify_eq. unfold holding, returned in *. by destruct (at_pc c).
  - destruct holder as [h|]; simpl in Hin.
    + apply list_elem_of_singleton in Hin. by subst.
    + by apply elem_of_nil in Hin.
Qed.


(** The six parts of [serialized]. *)
Ltac split_serialized :=
  unfold serialized; refine (conj _ (conj _ (conj _ (conj _ (conj _ _)))));
  simpl.

Lemma serialized_not_finished w0 s finished i :
  serialized w0 s finished (Some i) → i ∉ finished.
Proof.
  intros (Hnd & _). apply NoDup_app in Hnd as (_ & Hdis & _).
  intros Hin. apply (Hdis i Hin). simpl. by apply list_elem_of_singleton.
Qed.

(** The holder goes on: it hands over more bytes, or the underlying writer
    returns. *)
Lemma holder_advance w0 s finished i c pc' extra :
  serialized w0 s finished (Some i) →
  calls s !! i = Some c →
  holding (Call (p c) pc') = true →
  take (progress (Call (p c) pc')) (p c) = take (progress c) (p c) ++ extra →
  (progress (Call (p c) pc') ≤ length (p c))%nat →
  serialized w0 {| t := {| w := w (t s) ++ extra; m := m (t s) |};
                   calls := move i c pc' s |} finished (Some i).
Proof.
  intros Hser Hi Hhold Htake Hbound.
  pose proof (serialized_not_finished _ _ _ _ Hser) as Hnot.
  destruct Hser as (Hnd & Hfin & [Hm _] & Hcover & Hbounds & Hw).
  split_serialized.
  - done.
  - rewrite Forall_forall in *. intros j Hj.
    destruct (Hfin j Hj) as (cj & Hcj & Hret). exists cj. split; [|done].
    rewrite lookup_move_ne; [done|]. by intros ->.
  - split; [done|]. eexists. split; [by apply lookup_move_eq|done].
  - intros j cj Hj Hne. destruct (decide (i = j)) as [->|Hij].
    + apply elem_of_app. right. by apply list_elem_of_singleton.
    + rewrite lookup_move_ne in Hj by done. eauto.
  - intros j cj Hj. destruct (decide (i = j)) as [->|Hij].
    + rewrite (lookup_move_eq _ _ _ _ Hi) in Hj. by simplify_eq.
    + rewrite lookup_move_ne in Hj by done. eauto.
  - rewrite Hw, !fmap_app, !concat_app, received_move_ne by done. simpl.
    rewrite (received_move_eq _ _ _ _ _ Hi), Htake.
    unfold received at 2. rewrite Hi.
    by rewrite !app_nil_r, <- !app_assoc.
Qed.

(** The sequence of arguments never changes. *)
Lemma step_args l s s' : step l s = Some s' → p <$> calls s' = p <$> calls s.
Proof.
  unfold step. intros Hstep.
  destruct l; repeat case_match; simplify_eq; simpl; unfold move;
    (rewrite list_fmap_insert; simpl; apply list_insert_id;
     rewrite list_lookup_fmap;
     by match goal with H : calls _ !! _ = Some _ |- _ => rewrite H end).
Qed.

Lemma step_serialized w0 l s s' finished holder :
  serialized w0 s finished holder → step l s = Some s' →
  ∃ finished' holder', serialized w0 s' finished' holder'.
Proof.
  intros Hser Hstep. unfold step in Hstep. destruct l as [i|i|i|i e|i].
  - (* Lock *)
    destruct (calls s !! i) as [c|] eqn:Hi; [|done].
    destruct (at_pc c) eqn:Hpc; try done.
    destruct (m (t s)) eqn:Hm; [done|]. simplify_eq.
    destruct Hser as (Hnd & Hfin & Hhold & Hcover & Hbounds & Hw).
    destruct holder as [h|]; [destruct Hhold; congruence|].
    simpl in *. rewrite app_nil_r in *.
    assert (i ∉ finished) as Hnot.
    { intros Hin. rewrite Forall_forall in Hfin.
      destruct (Hfin i Hin) as (c' & Hi' & Hret). simplify_eq.
      unfold returned in Hret. by rewrite Hpc in Hret. }
    exists finished, (Some i). split_serialized.
    + apply NoDup_app. split_and!; [done| |apply NoDup_singleton].
      intros j Hj ->%list_elem_of_singleton. done.
    + rewrite Forall_forall in *. intros j Hj.
      destruct (Hfin j Hj) as (cj & Hcj & Hret). exists cj. split; [|done].
      rewrite lookup_move_ne; [done|]. by intros ->.
    + split; [done|]. eexists. split; [by apply lookup_move_eq|done].
    + intros j cj Hj Hne. apply elem_of_app.
      destruct (decide (i = j)) as [->|Hij].
      * right. by apply list_elem_of_singleton.
      * left. rewrite lookup_move_ne in Hj by done. eauto.
    + intros j cj Hj. destruct (decide (i = j)) as [->|Hij].
      * rewrite (lookup_move_eq _ _ _ _ Hi) in Hj. simplify_eq.
        unfold progress; simpl. lia.
      * rewrite lookup_move_ne in Hj by done. eauto.
    + rewrite Hw, !fmap_app, !concat_app, received_move_ne by done. simpl.
      rewrite (received_move_eq _ _ _ _ _ Hi). by rewrite !app_nil_r.
  - (* WriteByte *)
    destruct (calls s !! i) as [c|] eqn:Hi; [|done].
    destruct (at_pc c) eqn:Hpc; try done.
    destruct (p c !! k) as [b|] eqn:Hb; [|done]. simplify_eq.
    assert (holder = Some i) as ->.
    { eapply holder_is; [done..|]. unfold holding. by rewrite Hpc. }
    exists finished, (Some i).
    apply (holder_advance _ _ _ _ _ (InWrite (S k)) [b]); try done.
    + unfold progress; simpl. rewrite Hpc. by apply take_S_r.
    + unfold progress; simpl. by apply lookup_lt_Some in Hb.
  - (* WriteReturn *)
    destruct (calls s !! i) as [c|] eqn:Hi; [|done].
    destruct (at_pc c) eqn:Hpc; try done.
    case_decide; [|done]. simplify_eq.
    assert (holder = Some i) as ->.
    { eapply holder_is; [done..|]. unfold holding. by rewrite Hpc. }
    exists finished, (Some i).
    replace (t s) with {| w := w (t s) ++ []; m := m (t s) |}
      by (rewrite app_nil_r; by destruct (t s)).
    apply (holder_advance _ _ _ _ _ (AtUnlock (length (p c)) None) []);
      try done.
    unfold progress; simpl. by rewrite Hpc, app_nil_r.
  - (* WriteFail *)
    destruct (calls s !! i) as [c|] eqn:Hi; [|done].
    destruct (at_pc c) eqn:Hpc; try done. simplify_eq.
    assert (holder = Some i) as ->.
    { eapply holder_is; [done..|]. unfold holding. by rewrite Hpc. }
    exists finished, (Some i).
    replace (t s) with {| w := w (t s) ++ []; m := m (t s) |}
      by (rewrite app_nil_r; by destruct (t s)).
    apply (holder_advance _ _ _ _ _ (AtUnlock k (Some e)) []); try done.
    + unfold progress; simpl. by rewrite Hpc, app_nil_r.
    + destruct Hser as (_ & _ & _ & _ & Hbounds & _).
      specialize (Hbounds i c Hi). unfold progress in *. simpl.
      by rewrite Hpc in Hbounds.
  - (* Unlock *)
    destruct (calls s !! i) as [c|] eqn:Hi; [|done].
    destruct (at_pc c) eqn:Hpc; try done.
    destruct (m (t s)) eqn:Hm; [|done]. simplify_eq.
    assert (holder = Some i) as ->.
    { eapply holder_is; [done..|]. unfold holding. by rewrite Hpc. }
    pose proof (serialized_not_finished _ _ _ _ Hser) as Hnot.
    destruct Hser as (Hnd & Hfin & Hhold & Hcover & Hbounds & Hw).
    exists (finished ++ [i]), None. simpl in *.
    split_serialized; rewrite ?app_nil_r.
    + done.
    + apply Forall_app. split.
      * rewrite Forall_forall in *. intros j Hj.
        destruct (Hfin j Hj) as (cj & Hcj & Hret). exists cj. split; [|done].
        rewrite lookup_move_ne; [done|]. by intros ->.
      * apply Forall_singleton. eexists.
        split; [by apply lookup_move_eq|done].
    + done.
    + intros j cj Hj Hne. destruct (decide (i = j)) as [->|Hij].
      * apply elem_of_app. right. by apply list_elem_of_singleton.
      * rewrite lookup_move_ne in Hj by done. eauto.
    + intros j cj Hj. destruct (decide (i = j)) as [->|Hij].
      * rewrite (lookup_move_eq _ _ _ _ Hi) in Hj. simplify_eq.
        specialize (Hbounds j c Hi). unfold progress in *. simpl.
        by rewrite Hpc in Hbounds.
      * rewrite lookup_move_ne in Hj by done. eauto.
    + rewrite Hw, !fmap_app, !concat_app, received_move_ne by done. simpl.
      rewrite (received_move_eq _ _ _ _ _ Hi).
      unfold received at 2. rewrite Hi. unfold progress; simpl.
      by rewrite Hpc.
Qed.


Lemma serialized_init w0 ps : serialized w0 (init w0 ps) [] None.
Proof.
  split_serialized.
  - apply NoDup_nil_2.
  - apply Forall_nil_2.
  - done.
  - intros i c Hi Hne.
    rewrite list_lookup_fmap in Hi.
    destruct (ps !! i); simpl in *; simplify_eq; simpl in *; done.
  - intros i c Hi.
    rewrite list_lookup_fmap in Hi.
    destruct (ps !! i); simpl in *; simplify_eq.
    unfold progress; simpl. lia.
  - by rewrite app_nil_r.
Qed.

Lemma exec_serialized w0 ps ls s :
  exec ls (init w0 ps) = Some s →
  p <$> calls s = ps ∧ ∃ finished holder, serialized w0 s finished holder.
Proof.
  assert (p <$> calls (init w0 ps) = ps) as Hargs.
  { simpl. rewrite <- list_fmap_compose. apply list_fmap_id. }
  pose proof (serialized_init w0 ps) as Hser.
  revert Hargs Hser. generalize (init w0 ps) (@nil nat) (@None nat).
  induction ls as [|l ls IH]; simpl; intros s0 finished holder Hargs Hser Hexec.
  - simplify_eq. eauto.
  - destruct (step l s0) as [s1|] eqn:Hl; [|done].
    destruct (step_serialized _ _ _ _ _ _ Hser Hl) as (f1 & h1 & Hser1).
    apply (IH s1 f1 h1); [|done..]. by rewrite (step_args _ _ _ Hl).
Qed.

Lemma step_whole_or_error l s s' :
  Forall whole_or_error (calls s) → step l s = Some s' →
  Forall whole_or_error (calls s').
Proof.
  unfold step. intros Hall Hstep.
  destruct l as [i|i|i|i e|i];
    destruct (calls s !! i) as [c|] eqn:Hi; try done;
    pose proof (Forall_lookup_1 _ _ _ _ Hall Hi) as Hc;
    unfold whole_or_error in Hc;
    destruct (at_pc c) eqn:Hpc; try done;
    repeat case_match; simplify_eq; simpl; unfold move;
    apply Forall_insert; done.
Qed.

Lemma exec_whole_or_error w0 ps ls s :
  exec ls (init w0 ps) = Some s → Forall whole_or_error (calls s).
Proof.
  assert (Forall whole_or_error (calls (init w0 ps))) as Hinit.
  { simpl. apply Forall_fmap. by apply Forall_true. }
  revert Hinit. generalize (init w0 ps).
  induction ls as [|l ls IH]; simpl; intros s0 Hinit Hexec.
  - by simplify_eq.
  - destruct (step l s0) as [s1|] eqn:Hl; [|done].
    eauto using step_whole_or_error.
Qed.

(** X9: in every state of every run the arguments of the calls are as
    given, and the calls that have passed [Lock] can be listed, each once,
    so that the underlying writer has received exactly what each has handed
    over, call after call; a call inside the critical section is the last
    of that list and holds the mutex, so no two are inside at once. *)
Theorem Write_calls_do_not_interleave w0 ps ls s :
  exec ls (init w0 ps) = Some s →
  p <$> calls s = ps
  ∧ ∃ order,
      NoDup order
      ∧ (∀ i, i ∈ order ↔ ∃ c, calls s !! i = Some c ∧ at_pc c ≠ AtLock)
      ∧ w (t s) = w0 ++ concat (received s <$> order)
      ∧ (∀ i c, calls s !! i = Some c → holding c = true →
           m (t s) = true ∧ last order = Some i)
      ∧ (m (t s) = true → ∃ i c, calls s !! i = Some c ∧ holding c = true).
Proof.
  intros (Hargs & finished & holder & Hser)%exec_serialized.
  split; [done|]. exists (finished ++ option_list holder).
  pose proof Hser as (Hnd & Hfin & Hhold & Hcover & Hbounds & Hw).
  split_and!; try done.
  - intros i. split; [|intros (c & Hi & Hne); eauto].
    intros [Hin|Hin]%elem_of_app.
    + rewrite Forall_forall in Hfin. destruct (Hfin i Hin) as (c & Hi & Hret).
      exists c. split; [done|]. unfold returned in Hret.
      by destruct (at_pc c).
    + destruct holder as [h|]; simpl in Hin; [|by apply elem_of_nil in Hin].
      apply list_elem_of_singleton in Hin as ->.
      destruct Hhold as (_ & c & Hi & Hc). exists c. split; [done|].
      unfold holding in Hc. by destruct (at_pc c).
  - intros i c Hi Hc. rewrite (holder_is _ _ _ _ _ _ Hser Hi Hc) in *.
    destruct Hhold as [Hm _]. split; [done|]. simpl. by rewrite last_snoc.
  - intros Hm. destruct holder as [h|]; [|congruence].
    destruct Hhold as (_ & c & Hi & Hc). eauto.
Qed.


(** X10: when every call has returned, with or without an error, the
    mutex is free and the underlying writer has received what each call
    handed over, in some order of the calls; if no call failed it has
    received the arguments whole, in some order. *)
Theorem Write_all_returned w0 ps ls s :
  exec ls (init w0 ps) = Some s →
  Forall (fun c => returned c = true) (calls s) →
  m (t s) = false
  ∧ (∃ order, order ≡ₚ seq 0 (length ps)
              ∧ w (t s) = w0 ++ concat (received s <$> order))
  ∧ (Forall (fun c => ∃ n, at_pc c = Returned n None) (calls s) →
     ∃ ps', ps' ≡ₚ ps ∧ w (t s) = w0 ++ concat ps').
Proof.
  intros Hexec Hall.
  pose proof (exec_whole_or_error _ _ _ _ Hexec) as Hres.
  apply exec_serialized in Hexec as (Hargs & finished & holder & Hser).
  pose proof Hser as (Hnd & Hfin & Hhold & Hcover & Hbounds & Hw).
  assert (holder = None) as ->.
  { destruct holder as [h|]; [|done].
    destruct Hhold as (_ & c & Hi & Hc).
    pose proof (Forall_lookup_1 _ _ _ _ Hall Hi) as Hret.
    unfold holding, returned in *. by destruct (at_pc c). }
  simpl in *. rewrite app_nil_r in *.
  assert (length (calls s) = length ps) as Hlen.
  { by rewrite <- Hargs, length_fmap. }
  assert (finished ≡ₚ seq 0 (length ps)) as Hperm.
  { apply NoDup_Permutation; [done | apply NoDup_seq |].
    intros i. rewrite elem_of_seq. split.
    - intros Hin. rewrite Forall_forall in Hfin.
      destruct (Hfin i Hin) as (c & Hi & _).
      apply lookup_lt_Some in Hi. lia.
    - intros [_ Hi]. rewrite <- Hlen in Hi. simpl in Hi.
      apply lookup_lt_is_Some in Hi as [c Hi].
      apply (Hcover i c Hi).
      pose proof (Forall_lookup_1 _ _ _ _ Hall Hi) as Hret.
      unfold returned in Hret. by destruct (at_pc c). }
  split_and!; [done | by exists finished |].
  intros Hok. exists (received s <$> finished). split; [|done].
  rewrite Hperm.
  assert (received s <$> seq 0 (length ps) = ps) as Heq; [|by rewrite Heq].
  rewrite <- Hlen, <- Hargs. apply list_eq. intros i.
  rewrite !list_lookup_fmap.
  destruct (calls s !! i) as [c|] eqn:Hi; simpl.
  - rewrite lookup_seq_lt by (apply lookup_lt_Some in Hi; lia). simpl.
    unfold received. rewrite Hi. f_equal.
    pose proof (Forall_lookup_1 _ _ _ _ Hok Hi) as [n Hpc].
    pose proof (Forall_lookup_1 _ _ _ _ Hres Hi) as Hn.
    unfold whole_or_error, progress in *. rewrite Hpc in *. subst.
    apply firstn_all.
  - rewrite lookup_seq_ge; [done|]. apply lookup_ge_None in Hi. lia.
Qed.

(** X11: in every state of every run either every call has returned or
    some call can take a step that is not a failure of the underlying
    writer: the mutex is never left locked with nobody to unlock it. *)
Theorem Write_never_deadlocks w0 ps ls s :
  exec ls (init w0 ps) = Some s →
  Forall (fun c => returned c = true) (calls s)
  ∨ ∃ l, (∀ i e, l ≠ WriteFail i e) ∧ is_Some (step l s).
Proof.
  intros (Hargs & finished & holder & Hser)%exec_serialized.
  destruct Hser as (Hnd & Hfin & Hhold & Hcover & Hbounds & Hw).
  destruct holder as [h|].
  - right. destruct Hhold as (Hm & c & Hi & Hc).
    specialize (Hbounds h c Hi). unfold holding, progress in *.
    destruct (at_pc c) as [|k|n err|n err] eqn:Hpc; try done.
    + destruct (decide (k = length (p c))) as [Hk|Hk].
      * exists (WriteReturn h). split; [done|]. simpl.
        by rewrite Hi, Hpc, decide_True.
      * assert (is_Some (p c !! k)) as [b Hb]
          by (apply lookup_lt_is_Some; lia).
        exists (WriteByte h). split; [done|]. simpl. by rewrite Hi, Hpc, Hb.
    + exists (Unlock h). split; [done|]. simpl. by rewrite Hi, Hpc, Hm.
  - simpl in *. rewrite app_nil_r in *.
    destruct (decide (Forall (fun c => at_pc c ≠ AtLock) (calls s)))
      as [Hnone|Hsome].
    + left. apply Forall_lookup. intros i c Hi.
      pose proof (Forall_lookup_1 _ _ _ _ Hnone Hi) as Hne.
      rewrite Forall_forall in Hfin.
      destruct (Hfin i (Hcover i c Hi Hne)) as (c' & Hi' & Hret).
      by simplify_eq.
    + right. apply not_Forall_Exists in Hsome; [|apply _].
      apply Exists_exists in Hsome as (c & Hin & Hc).
      apply list_elem_of_lookup in Hin as [i Hi].
      exists (Lock i). split; [done|]. simpl. rewrite Hi.
      unfold compose in Hc.
      destruct (at_pc c); try (exfalso; apply Hc; discriminate).
      by rewrite Hhold.
Qed.

End WriterProofs.

(** * More properties on sample runs *)

(** X1 on the whole sample run: both deferred calls have run, the flush
    first. *)
Lemma Start_deferred_cleanup_witness :
  ∃ s, exec sample_world sample_labels (New 0 0 0)%nat = Some s
       ∧ at_pc s = PDone None
       ∧ EvDeferred CloseDataFile ∈ trace s
       ∧ EvDeferred FlushAndCloseLog ∈ trace s
       ∧ precedes (EvDeferred FlushAndCloseLog) (EvDeferred CloseDataFile)
           (trace s).
Proof.
  eexists.
  match goal with
  | |- ?E = Some ?s ∧ _ =>
      assert (E = Some s) as Hexec by (vm_compute; reflexivity)
  end.
  match goal with
  | |- _ ∧ ?P ∧ _ => assert P as Hpc by (vm_compute; reflexivity)
  end.
  destruct (Start_deferred_cleanup sample_world _ None
              (sample_reachable _ _ _ Hexec) Hpc)
    as (Hclose & Hflush & Horder & _).
  assert (EvDeferred FlushAndCloseLog ∈ trace
            (default (New 0 0 0)%nat
               (exec sample_world sample_labels (New 0 0 0)%nat))) as Hin.
  { apply Hflush. split; [|reflexivity].
    apply (bool_decide_unpack _). vm_compute. exact I. }
  split_and!; [exact Hexec | exact Hpc | | exact Hin
              | exact (proj2 (Horder Hin))].
  apply Hclose. split; [|reflexivity].
  apply (bool_decide_unpack _). vm_compute. exact I.
Defined.

(** X2 with a log that cannot be opened: [Start] returns that error in
    eight steps, having closed the data file and launched nothing. *)
Lemma Start_open_failure_aborts_witness :
  ∃ s, exec no_log_world (replicate 8 Coord) (New 0 0 0)%nat = Some s
       ∧ at_pc s = PDone (Some "open log: permission denied")
       ∧ (∀ c, EvStartLoop c ∉ trace s)
       ∧ precedes (EvDeferred CloseDataFile)
           (EvReturn (Some "open log: permission denied")) (trace s).
Proof.
  eexists.
  match goal with
  | |- ?E = Some ?s ∧ _ =>
      assert (E = Some s) as Hexec by (vm_compute; reflexivity)
  end.
  match goal with
  | |- _ ∧ ?P ∧ _ => assert P as Hpc by (vm_compute; reflexivity)
  end.
  destruct (Start_open_failure_aborts no_log_world _
              "open log: permission denied"
              (sample_reachable _ _ _ Hexec) eq_refl)
    as (Hloops & _ & _ & _ & _ & Hdone);
    [discriminate | right; split; reflexivity |].
  split_and!; [exact Hexec | exact Hpc | exact Hloops |].
  exact (proj2 (proj2 (Hdone _ Hpc) eq_refl)).
Defined.


(** X4 on the sample run at the [select]: after [Exit] the cancellation
    case can be taken. *)
Lemma Exit_cancels_run_witness :
  ∃ s s1, exec sample_world startup_labels (New 0 0 0)%nat = Some s
          ∧ step sample_world (Env CallExit) s = Some s1
          ∧ ctx_run s1 ∈ done s1
          ∧ is_Some (step sample_world (CoordSelect CtxDone) s1).
Proof.
  eexists.
  match goal with
  | |- ∃ s1, ?E = Some ?s ∧ _ =>
      assert (E = Some s) as Hexec by (vm_compute; reflexivity)
  end.
  edestruct (Exit_cancels_run sample_world) as (s1 & Hstep & _ & Hlater);
    [exact (sample_reachable _ _ _ Hexec) | vm_compute; reflexivity |].
  destruct (Hlater [] s1 eq_refl) as (Hdone & _ & _ & Hsel).
  exists s1. split_and!; [exact Hexec | exact Hstep | exact Hdone |].
  apply Hsel. rewrite (proj1 (env_step_frame _ _ _ Hstep)).
  vm_compute. reflexivity.
Defined.

(** X5 on the whole sample run, which has no interrupt. *)
Lemma watcher_cancels_only_on_interrupt_witness :
  ∃ s, exec sample_world sample_labels (New 0 0 0)%nat = Some s
       ∧ watcher s ≠ WCancel
       ∧ ch_buf (signalChannel (blaster s)) = [].
Proof.
  eexists.
  match goal with
  | |- ?E = Some ?s ∧ _ =>
      assert (E = Some s) as Hexec by (vm_compute; reflexivity)
  end.
  destruct (watcher_cancels_only_on_interrupt sample_world _ _ _ _ _ Hexec)
    as (Hw & Hbuf & _).
  { intros H. vm_compute in H. absurd_elem H. }
  split_and!; [exact Hexec | exact Hw | exact Hbuf].
Defined.

(** X6 on the sample run at the [select]: the interrupt is buffered and
    handed to the goroutine of [New]. *)
Lemma interrupt_never_lost_witness :
  ∃ s s', exec sample_world startup_labels (New 0 0 0)%nat = Some s
          ∧ step sample_world (Env OsInterrupt) s = Some s'
          ∧ ch_buf (signalChannel (blaster s')) = [Interrupt].
Proof.
  eexists.
  match goal with
  | |- ∃ s', ?E = Some ?s ∧ _ =>
      assert (E = Some s) as Hexec by (vm_compute; reflexivity)
  end.
  destruct (proj2 (interrupt_never_lost sample_world _
                     (sample_reachable _ _ _ Hexec)))
    as (s' & Hstep & Hbuf & _); [vm_compute; reflexivity|].
  exists s'. split_and!; [exact Hexec | exact Hstep | exact Hbuf].
Defined.

(** X9 on the two sample calls, stopped inside the second critical
    section: the writer holds "c" and then "a", and the mutex is locked. *)
Lemma Write_calls_do_not_interleave_witness :
  ∃ s, Writer.exec (take 6 sample_writes) (Writer.init [] sample_payloads)
       = Some s
       ∧ Writer.p <$> Writer.calls s = sample_payloads
       ∧ ∃ order,
           NoDup order
           ∧ Writer.w (Writer.t s) = [] ++ concat (Writer.received s <$> order).
Proof.
  eexists.
  match goal with
  | |- ?E = Some ?s ∧ _ =>
      assert (E = Some s) as Hexec by (vm_compute; reflexivity)
  end.
  destruct (WriterProofs.Write_calls_do_not_interleave _ _ _ _ Hexec)
    as (Hargs & order & Hnd & _ & Hw & _).
  split_and!; [exact Hexec | exact Hargs |].
  exists order. split; [exact Hnd | exact Hw].
Defined.

(** X10 on the two sample calls, both returned without error: the writer
    holds the two arguments whole. *)
Lemma Write_all_returned_witness :
  ∃ s, Writer.exec sample_writes (Writer.init [] sample_payloads) = Some s
       ∧ Writer.m (Writer.t s) = false
       ∧ ∃ ps', ps' ≡ₚ sample_payloads
                ∧ Writer.w (Writer.t s) = [] ++ concat ps'.
Proof.
  eexists.
  match goal with
  | |- ?E = Some ?s ∧ _ =>
      assert (E = Some s) as Hexec by (vm_compute; reflexivity)
  end.
  destruct (WriterProofs.Write_all_returned _ _ _ _ Hexec)
    as (Hm & _ & Hwhole).
  { vm_compute. repeat constructor. }
  split_and!; [exact Hexec | exact Hm |].
  apply Hwhole. vm_compute. repeat constructor; eexists; reflexivity.
Defined.

(** X11 on the two sample calls with the second one inside the underlying
    writer: some step other than a failure can be taken. *)
Lemma Write_never_deadlocks_witness :
  ∃ s, Writer.exec (take 2 sample_writes) (Writer.init [] sample_payloads)
       = Some s
       ∧ ∃ l, (∀ i e, l ≠ Writer.WriteFail i e)
              ∧ is_Some (Writer.step l s).
Proof.
  eexists.
  match goal with
  | |- ?E = Some ?s ∧ _ =>
      assert (E = Some s) as Hexec by (vm_compute; reflexivity)
  end.
  split; [exact Hexec|].
  destruct (WriterProofs.Write_never_deadlocks _ _ _ _ Hexec) as [Hall|Hstep];
    [|exact Hstep].
  exfalso. vm_compute in Hall.
  apply Forall_cons in Hall as [_ Hall].
  apply Forall_cons in Hall as [Hret _]. discriminate Hret.
Defined.
